(** * Option-pricing notebooks: a shallow embedding over the real numbers

    The notebooks [4.4 Black-Scholes-Merton Model], [4.5 Option Greeks] and
    [5.4 American Options] define a handful of numerical routines on top of
    numpy and scipy.  They are embedded here function by function.

    Conventions of the embedding.
    - A Python/numpy float is an element of [R]: rounding is not modelled.
      The statements below are therefore statements about the formulas the
      code evaluates.  The operations [np.log], [np.sqrt] and float division
      coincide with [ln], [sqrt] and [/] of the real numbers only on their
      real domain (positive argument, non-negative argument, non-zero
      divisor); outside of it numpy yields [nan] or [inf], which [R] has no
      counterpart for (the module [Numpy] adds them, for [closed_formula]).
      The main theorems carry the hypotheses of the claims they formalise
      (positive spot, strike, maturity and volatility, at least one step or
      path), which keep these operations inside the real domain.
    - A one-dimensional numpy array is a [list R]; a two-dimensional array is
      the list of its rows.
    - The outcome of a Python call is a [pyresult]: a returned value, the
      implicit [None] of a function whose body falls off its end, or a raised
      exception.
    - The pseudo-random generator behind [ss.norm.rvs] is an explicit
      argument: the stream [g : rng] of standard-normal draws that the seed
      determines.  A call with [size=M] consumes [g 0 .. g (M-1)]; a call with
      [size=(N, paths)] fills the matrix row by row.
    - [ss.norm.cdf] belongs to scipy; it is a variable [norm_cdf] of the
      sections below, and the one fact used about it is the reflection
      identity [norm_cdf (- x) = 1 - norm_cdf x]. *)

From Stdlib Require Import Reals Lra Lia String Ascii Arith List.
Import ListNotations.

Open Scope R_scope.

(** * Part I: the code *)

(** ** Outcomes of a Python call *)

Inductive pyresult (A : Type) : Type :=
| Return (a : A)          (* [return a] *)
| ReturnNone              (* the body ends without [return] *)
| Raise (exc : string).   (* [raise exc(...)] *)

Arguments Return {A} a.
Arguments ReturnNone {A}.
Arguments Raise {A} exc.

(** ** numpy and scipy helpers *)

(** Elementwise binary operation on two arrays of the same shape. *)
Fixpoint map2 {A B C : Type} (f : A -> B -> C) (xs : list A) (ys : list B)
  : list C :=
  match xs, ys with
  | x :: xs', y :: ys' => f x y :: map2 f xs' ys'
  | _, _ => []
  end.

(** [V[:] = rhs] for two arrays of the same shape: every entry of [V] is
    overwritten by the entry of [rhs] at the same index. *)
Definition assign_all (V rhs : list R) : list R :=
  map2 (fun _ x => x) V rhs.

(** [np.sum] of a one-dimensional array. *)
Definition np_sum (xs : list R) : R := fold_right Rplus 0 xs.

(** [np.mean] of a one-dimensional array. *)
Definition np_mean (xs : list R) : R := np_sum xs / INR (length xs).

(** [np.maximum(xs, c)] with a scalar [c] broadcast over the array. *)
Definition np_maximum_scalar (xs : list R) (c : R) : list R :=
  map (fun x => Rmax x c) xs.

(** [ss.sem(xs)] with scipy's default [ddof=1]: the sample standard deviation
    [sqrt (sum (x - mean)^2 / (n - 1))] divided by [sqrt n]. *)
Definition ss_sem (xs : list R) : R :=
  let n := INR (length xs) in
  let m := np_mean xs in
  sqrt (np_sum (map (fun x => (x - m) ^ 2) xs) / (n - 1)) / sqrt n.

(** [ss.norm.pdf]: the standard normal density. *)
Definition norm_pdf (x : R) : R := exp (- (x ^ 2) / 2) / sqrt (2 * PI).

(** The stream of standard-normal draws fixed by [random_state]. *)
Definition rng : Type := nat -> R.

(** [ss.norm.rvs(loc, scale, size=M, random_state=seed)]: scipy draws the
    standard sample and returns [vals * scale + loc]. *)
Definition norm_rvs (loc scale : R) (M : nat) (g : rng) : list R :=
  map (fun k => g k * scale + loc) (seq 0 M).

(** [ss.norm.rvs(loc, scale, size=(N, paths), random_state=seed)]. *)
Definition norm_rvs_2d (loc scale : R) (N paths : nat) (g : rng)
  : list (list R) :=
  map (fun i => map (fun j => g (i * paths + j)%nat * scale + loc)
                    (seq 0 paths))
      (seq 0 N).

(** ** Notebook 4.4: Black-Scholes-Merton Model *)

Module BSM.

Section Pricers.

(** scipy's [ss.norm.cdf]. *)
Variable norm_cdf : R -> R.

(** [closed_formula(S0, K, T, r, sigma, payoff='call')].  The [if]/[elif]
    chain has no [else]: any other selector falls off the end of the body. *)
Definition closed_formula (S0 K T r sigma : R) (payoff : string)
  : pyresult R :=
  let d1 := (ln (S0 / K) + (r + sigma ^ 2 / 2) * T) / (sigma * sqrt T) in
  let d2 := d1 - sigma * sqrt T in
  if (payoff =? "call")%string then
    Return (S0 * norm_cdf d1 - K * exp (- r * T) * norm_cdf d2)
  else if (payoff =? "put")%string then
    Return (K * exp (- r * T) * norm_cdf (- d2) - S0 * norm_cdf (- d1))
  else ReturnNone.

End Pricers.

(** The first two statements of [monte_carlo_method]:
    [W = ss.norm.rvs(loc=(r-sigma**2/2)*T, scale=sigma*np.sqrt(T), size=M,
    random_state=seed)] and [ST = S0 * np.exp(W)]. *)
Definition terminal_prices (S0 T r sigma : R) (M : nat) (g : rng) : list R :=
  let W := norm_rvs ((r - sigma ^ 2 / 2) * T) (sigma * sqrt T) M g in
  map (fun w => S0 * exp w) W.

(** [monte_carlo_method(S0, K, T, r, sigma, M, payoff='call', seed=None)],
    with the stream [g] standing for [seed]. *)
Definition monte_carlo_method (S0 K T r sigma : R) (M : nat)
  (payoff : string) (g : rng) : pyresult (R * R) :=
  let ST := terminal_prices S0 T r sigma M g in
  if (payoff =? "call")%string then
    let payoffs :=
      map (Rmult (exp (- r * T)))
          (np_maximum_scalar (map (fun s => s - K) ST) 0) in
    let std_err :=
      ss_sem (map (Rmult (exp (- r * T)))
                  (np_maximum_scalar (map (fun s => s - K) ST) 0)) in
    Return (np_mean payoffs, std_err)
  else if (payoff =? "put")%string then
    let payoffs :=
      map (Rmult (exp (- r * T)))
          (np_maximum_scalar (map (fun s => K - s) ST) 0) in
    let std_err :=
      ss_sem (map (Rmult (exp (- r * T)))
                  (np_maximum_scalar (map (fun s => K - s) ST) 0)) in
    Return (np_mean payoffs, std_err)
  else Raise "ValueError".

(** One pass of the loop body [V[:-1] = np.exp(-r * dt) * (p * V[1:] + q *
    V[:-1])].  numpy evaluates the right-hand side into a fresh array before
    it assigns, and the last entry of [V] is left as it was. *)
Definition backward_step (disc p q : R) (V : list R) : list R :=
  map2 (fun v_up v_down => disc * (p * v_up + q * v_down))
       (tl V) (removelast V)
  ++ skipn (length V - 1) V.

(** [binomial_method(S0, K, T, r, sigma, N, payoff='call')].  [N] is a
    natural number (a negative step count is outside the type); [T / N]
    with [N = 0] is Python's [ZeroDivisionError]. *)
Definition binomial_method (S0 K T r sigma : R) (N : nat) (payoff : string)
  : pyresult R :=
  match N with
  | O => Raise "ZeroDivisionError"
  | S _ =>
    let dt := T / INR N in
    let u := exp (sigma * sqrt dt) in
    let d := 1 / u in
    let V := repeat 0 (N + 1) in
    let ST := map (fun j => S0 * u ^ j * d ^ (N - j)) (seq 0 (N + 1)) in
    let p := (exp (r * dt) - d) / (u - d) in
    let q := 1 - p in
    let assigned :=
      if (payoff =? "call")%string then
        Some (assign_all V (np_maximum_scalar (map (fun s => s - K) ST) 0))
      else if (payoff =? "put")%string then
        Some (assign_all V (np_maximum_scalar (map (fun s => K - s) ST) 0))
      else None in
    match assigned with
    | None => Raise "ValueError"
    | Some V =>
      let V :=
        fold_left
          (fun V (_ : nat) => backward_step (exp (- r * dt)) p q V)
          (rev (seq 0 N)) V in
      match V with
      | v0 :: _ => Return v0
      | [] => Raise "IndexError"
      end
    end
  end.

End BSM.

(** ** [closed_formula] with numpy's special values

    Outside the real domain numpy does not raise: [np.sqrt] of a negative
    number is [nan], a quotient by zero is [inf], [-inf] or [nan], and these
    values propagate.  To say what [closed_formula] does on a non-positive
    [sigma] or [T], the function is embedded a second time over the doubles
    extended by these three values.  Rounding is still left out: a finite
    double is a real number.  [R] has one zero where IEEE has two, so the
    sign bit of a zero divisor is the parameter [minus_zero] of the
    division. *)

Module Numpy.

Inductive float64 : Type :=
| Finite (x : R)
| PosInf
| NegInf
| NaN.

Definition is_negative (x : R) : bool :=
  if Rlt_dec x 0 then true else false.

Definition is_zero (x : R) : bool :=
  if Req_dec_T x 0 then true else false.

Definition signed_inf (negative : bool) : float64 :=
  if negative then NegInf else PosInf.

(** [np.log] of a Python float. *)
Definition np_log (x : R) : float64 :=
  if Rlt_dec 0 x then Finite (ln x)
  else if is_zero x then NegInf
  else NaN.

(** [np.sqrt] of a Python float. *)
Definition np_sqrt (x : R) : float64 :=
  if Rle_dec 0 x then Finite (sqrt x) else NaN.

Definition neg (a : float64) : float64 :=
  match a with
  | Finite x => Finite (- x)
  | PosInf => NegInf
  | NegInf => PosInf
  | NaN => NaN
  end.

Definition add (a b : float64) : float64 :=
  match a, b with
  | Finite x, Finite y => Finite (x + y)
  | Finite _, PosInf => PosInf
  | Finite _, NegInf => NegInf
  | PosInf, Finite _ => PosInf
  | PosInf, PosInf => PosInf
  | PosInf, NegInf => NaN
  | NegInf, Finite _ => NegInf
  | NegInf, PosInf => NaN
  | NegInf, NegInf => NegInf
  | NaN, _ => NaN
  | _, NaN => NaN
  end.

Definition sub (a b : float64) : float64 := add a (neg b).

Definition mul (a b : float64) : float64 :=
  match a, b with
  | Finite x, Finite y => Finite (x * y)
  | Finite x, PosInf =>
    if is_zero x then NaN else signed_inf (is_negative x)
  | Finite x, NegInf =>
    if is_zero x then NaN else signed_inf (negb (is_negative x))
  | PosInf, Finite y =>
    if is_zero y then NaN else signed_inf (is_negative y)
  | NegInf, Finite y =>
    if is_zero y then NaN else signed_inf (negb (is_negative y))
  | PosInf, PosInf => PosInf
  | PosInf, NegInf => NegInf
  | NegInf, PosInf => NegInf
  | NegInf, NegInf => PosInf
  | NaN, _ => NaN
  | _, NaN => NaN
  end.

(** Division of two numpy doubles; [minus_zero] is the sign bit of the
    divisor when the divisor is zero. *)
Definition div (minus_zero : bool) (a b : float64) : float64 :=
  match a, b with
  | Finite x, Finite y =>
    if is_zero y then
      if is_zero x then NaN
      else signed_inf (xorb (is_negative x) minus_zero)
    else Finite (x / y)
  | Finite _, PosInf => Finite 0
  | Finite _, NegInf => Finite 0
  | PosInf, Finite y =>
    signed_inf (if is_zero y then minus_zero else is_negative y)
  | NegInf, Finite y =>
    signed_inf (negb (if is_zero y then minus_zero else is_negative y))
  | PosInf, PosInf => NaN
  | PosInf, NegInf => NaN
  | NegInf, PosInf => NaN
  | NegInf, NegInf => NaN
  | NaN, _ => NaN
  | _, NaN => NaN
  end.

Section ClosedFormula.

(** scipy's [ss.norm.cdf] on the real line. *)
Variable norm_cdf : R -> R.

(** [ss.norm.cdf] on a numpy double: [1] at [inf], [0] at [-inf], [nan] at
    [nan]. *)
Definition cdf (a : float64) : float64 :=
  match a with
  | Finite x => Finite (norm_cdf x)
  | PosInf => Finite 1
  | NegInf => Finite 0
  | NaN => NaN
  end.

(** [closed_formula(S0, K, T, r, sigma, payoff='call')] called on Python
    floats, as in the notebook.  [S0 / K], [sigma**2 / 2], [(r + ...) * T]
    and [-r * T] are Python float operations ([S0 / K] raises
    [ZeroDivisionError] at [K = 0]); every operation that has an [np.log],
    [np.sqrt], [np.exp] or [ss.norm.cdf] result as an operand is a numpy
    one. *)
Definition closed_formula (minus_zero : bool) (S0 K T r sigma : R)
  (payoff : string) : pyresult float64 :=
  if is_zero K then Raise "ZeroDivisionError"
  else
    let d1 :=
      div minus_zero
        (add (np_log (S0 / K)) (Finite ((r + sigma ^ 2 / 2) * T)))
        (mul (Finite sigma) (np_sqrt T)) in
    let d2 := sub d1 (mul (Finite sigma) (np_sqrt T)) in
    if (payoff =? "call")%string then
      Return (sub (mul (Finite S0) (cdf d1))
                  (mul (Finite (K * exp (- r * T))) (cdf d2)))
    else if (payoff =? "put")%string then
      Return (sub (mul (Finite (K * exp (- r * T))) (cdf (neg d2)))
                  (mul (Finite S0) (cdf (neg d1))))
    else ReturnNone.

End ClosedFormula.

End Numpy.

(** ** Notebook 4.5: Option Greeks *)

Module Greeks.

(** [str.lower] on the ASCII range: [A]..[Z] are shifted to [a]..[z]. *)
Definition lower_ascii (c : ascii) : ascii :=
  let n := nat_of_ascii c in
  if andb (65 <=? n)%nat (n <=? 90)%nat then ascii_of_nat (n + 32) else c.

Fixpoint lower (s : string) : string :=
  match s with
  | EmptyString => EmptyString
  | String c s' => String (lower_ascii c) (lower s')
  end.

Section Sensitivities.

(** scipy's [ss.norm.cdf]. *)
Variable norm_cdf : R -> R.

(** The notebook restates [closed_formula] ("Recall from the previous
    notebook"). *)
Definition closed_formula (S0 K T r sigma : R) (payoff : string)
  : pyresult R :=
  let d1 := (ln (S0 / K) + (r + sigma ^ 2 / 2) * T) / (sigma * sqrt T) in
  let d2 := d1 - sigma * sqrt T in
  if (payoff =? "call")%string then
    Return (S0 * norm_cdf d1 - K * exp (- r * T) * norm_cdf d2)
  else if (payoff =? "put")%string then
    Return (K * exp (- r * T) * norm_cdf (- d2) - S0 * norm_cdf (- d1))
  else ReturnNone.

(** [calculate_delta(S0, K, T, r, sigma, payoff='call')]. *)
Definition calculate_delta (S0 K T r sigma : R) (payoff : string)
  : pyresult R :=
  let d1 := (ln (S0 / K) + (r + sigma ^ 2 / 2) * T) / (sigma * sqrt T) in
  if (lower payoff =? "call")%string then
    Return (norm_cdf d1)
  else if (lower payoff =? "put")%string then
    Return (norm_cdf d1 - 1)
  else ReturnNone.

(** [calculate_theta(S0, K, T, r, sigma, payoff='call')]: the yearly theta
    divided by [365.0].  The selector is compared as it is, without
    [.lower()]. *)
Definition calculate_theta (S0 K T r sigma : R) (payoff : string)
  : pyresult R :=
  let d1 := (ln (S0 / K) + (r + sigma ^ 2 / 2) * T) / (sigma * sqrt T) in
  let d2 := d1 - sigma * sqrt T in
  if (payoff =? "call")%string then
    Return ((- S0 * norm_pdf d1 * sigma / (2 * sqrt T)
             - r * K * exp (- r * T) * norm_cdf d2) / 365)
  else if (payoff =? "put")%string then
    Return ((- S0 * norm_pdf d1 * sigma / (2 * sqrt T)
             + r * K * exp (- r * T) * norm_cdf (- d2)) / 365)
  else ReturnNone.

(** [calculate_rho(S0, K, T, r, sigma, payoff='call')]. *)
Definition calculate_rho (S0 K T r sigma : R) (payoff : string)
  : pyresult R :=
  let d1 := (ln (S0 / K) + (r + sigma ^ 2 / 2) * T) / (sigma * sqrt T) in
  let d2 := d1 - sigma * sqrt T in
  if (payoff =? "call")%string then
    Return ((K * T * exp (- r * T) * norm_cdf d2) / 100)
  else if (payoff =? "put")%string then
    Return ((- K * T * exp (- r * T) * norm_cdf (- d2)) / 100)
  else ReturnNone.

End Sensitivities.

(** [calculate_gamma(S0, K, T, r, sigma)]. *)
Definition calculate_gamma (S0 K T r sigma : R) : R :=
  let d1 := (ln (S0 / K) + (r + sigma ^ 2 / 2) * T) / (sigma * sqrt T) in
  norm_pdf d1 / (S0 * sigma * sqrt T).

(** [calculate_vega(S0, K, T, r, sigma)]. *)
Definition calculate_vega (S0 K T r sigma : R) : R :=
  let d1 := (ln (S0 / K) + (r + sigma ^ 2 / 2) * T) / (sigma * sqrt T) in
  (S0 * sqrt T * norm_pdf d1) / 100.

(** The two cells that print the gamma and the vega "of the call" and "of the
    put": each pair is computed by the same call. *)
Definition call_gamma (S0 K T r sigma : R) : R :=
  calculate_gamma S0 K T r sigma.

Definition put_gamma (S0 K T r sigma : R) : R :=
  calculate_gamma S0 K T r sigma.

Definition call_vega (S0 K T r sigma : R) : R :=
  calculate_vega S0 K T r sigma.

Definition put_vega (S0 K T r sigma : R) : R :=
  calculate_vega S0 K T r sigma.

End Greeks.

(** ** Notebook 5.4: American Options *)

Module American.

(** Row assignment [S[i, :] = row].  The loop below only writes rows
    [1 .. N] of an array with [N + 1] rows. *)
Fixpoint set_row {A : Type} (i : nat) (row : A) (m : list A) : list A :=
  match m, i with
  | [], _ => []
  | _ :: m', O => row :: m'
  | x :: m', S i' => x :: set_row i' row m'
  end.

(** The path simulation of the Monte Carlo cell:
    [S = np.zeros((N+1, paths)); S[0, :] = S0],
    [Z = ss.norm.rvs(loc=0, scale=1, size=(N, paths), random_state=42)] and
    the loop [for i in range(1, N+1)] that fills row [i] from row [i-1]. *)
Definition simulate_paths (S0 T r sigma : R) (N paths : nat) (g : rng)
  : list (list R) :=
  let dt := T / INR N in
  let S := repeat (repeat 0 paths) (N + 1) in
  let S := set_row 0 (repeat S0 paths) S in
  let Z := norm_rvs_2d 0 1 N paths g in
  fold_left
    (fun S i =>
       set_row i
         (map2 Rmult (nth (i - 1) S [])
            (map (fun z => exp ((r - sigma ^ 2 / 2) * dt + sigma * sqrt dt * z))
                 (nth (i - 1) Z [])))
         S)
    (seq 1 N) S.

(** The rest of the cell: intrinsic values of the put on every node of every
    path, backward induction from the last row, mean and standard error.
    The cell fixes [N = 252] and [paths = 100000]; they are parameters
    here. *)
Definition american_put_mc (S0 K T r sigma : R) (N paths : nat) (g : rng)
  : R * R :=
  let dt := T / INR N in
  let S := simulate_paths S0 T r sigma N paths g in
  let payoffs :=
    map (fun row => np_maximum_scalar (map (fun s => K - s) row) 0) S in
  let option_values := last payoffs [] in
  let option_values :=
    fold_left
      (fun option_values i =>
         let discounted_payoff := map (Rmult (exp (- r * dt))) option_values in
         map2 Rmax (nth i payoffs []) discounted_payoff)
      (rev (seq 0 N)) option_values in
  (np_mean option_values, ss_sem option_values).

End American.

(** * Part II: the formulas of the specification *)

Module Spec.

Section Formulas.

(** The standard normal distribution function. *)
Variable Phi : R -> R.

Definition d1 (S0 K T r sigma : R) : R :=
  (ln (S0 / K) + (r + sigma * sigma / 2) * T) / (sigma * sqrt T).

Definition d2 (S0 K T r sigma : R) : R :=
  d1 S0 K T r sigma - sigma * sqrt T.

(** [S0*Phi(d1) - K*e^{-rT}*Phi(d2)]. *)
Definition call_price (S0 K T r sigma : R) : R :=
  S0 * Phi (d1 S0 K T r sigma)
  - K * exp (- (r * T)) * Phi (d2 S0 K T r sigma).

(** [K*e^{-rT}*Phi(-d2) - S0*Phi(-d1)]. *)
Definition put_price (S0 K T r sigma : R) : R :=
  K * exp (- (r * T)) * Phi (- d2 S0 K T r sigma)
  - S0 * Phi (- d1 S0 K T r sigma).

End Formulas.

(** The payoff of a vanilla option at the price [s]. *)
Inductive kind : Type := Call | Put.

Definition payoff_at (k : kind) (K s : R) : R :=
  match k with
  | Call => Rmax (s - K) 0
  | Put => Rmax (K - s) 0
  end.

Definition selector (k : kind) : string :=
  match k with Call => "call" | Put => "put" end.

(** The recombining tree with [N] steps.  [node_value m j] is the value of
    the node of layer [N - m] that [j] up-moves lead to: the payoff at
    [S0 * u^j * d^(N-j)] on the terminal layer ([m = 0]), and the discounted
    risk-neutral expectation of the two children one layer earlier. *)
Section Tree.

Variables (S0 K T r sigma : R) (N : nat) (k : kind).

Definition dt : R := T / INR N.

Definition u : R := exp (sigma * sqrt dt).

Definition d : R := 1 / u.

Definition p : R := (exp (r * dt) - d) / (u - d).

Fixpoint node_value (m j : nat) : R :=
  match m with
  | O => payoff_at k K (S0 * u ^ j * d ^ (N - j))
  | S m' =>
    exp (- (r * dt))
    * (p * node_value m' (j + 1) + (1 - p) * node_value m' j)
  end.

Definition root_value : R := node_value N 0.

End Tree.

(** Sum of [f 0 .. f (n-1)]. *)
Fixpoint sum_upto (f : nat -> R) (n : nat) : R :=
  match n with
  | O => 0
  | S n' => sum_upto f n' + f n'
  end.

(** Arithmetic mean and sample standard deviation of [x 0 .. x (M-1)]. *)
Definition mean (x : nat -> R) (M : nat) : R := sum_upto x M / INR M.

Definition sample_std (x : nat -> R) (M : nat) : R :=
  sqrt (sum_upto (fun i => (x i - mean x M) * (x i - mean x M)) M
        / (INR M - 1)).

(** The exact lognormal recursion [S_i = S_{i-1} * exp((r - sigma^2/2)*dt +
    sigma*sqrt(dt)*Z_i)] started at [S0]; [Z i] is the increment of step
    [i + 1]. *)
Fixpoint gbm (S0 r sigma dt : R) (Z : nat -> R) (i : nat) : R :=
  match i with
  | O => S0
  | S i' =>
    gbm S0 r sigma dt Z i'
    * exp ((r - sigma * sigma / 2) * dt + sigma * sqrt dt * Z i')
  end.

(** The simulation of [paths] paths over [N] steps, read path by path. *)
Section PathByPath.

Variables (S0 K T r sigma : R) (N paths : nat) (g : rng).

(** The increments of path [j], in the order the steps consume them. *)
Definition increments (j i : nat) : R := g (i * paths + j)%nat.

(** The prices of all paths after [i] steps. *)
Definition price_row (i : nat) : list R :=
  map (fun j => gbm S0 r sigma (T / INR N) (increments j) i) (seq 0 paths).

(** The immediate-exercise value of the put on path [j] after [i] steps. *)
Definition intrinsic (i j : nat) : R :=
  Rmax (K - gbm S0 r sigma (T / INR N) (increments j) i) 0.

(** Backward induction along path [j]: the value [m] steps before maturity
    is the larger of the intrinsic value there and the value one step later
    discounted over one step. *)
Fixpoint held (m j : nat) : R :=
  match m with
  | O => intrinsic N j
  | S m' =>
    Rmax (intrinsic (N - S m') j) (exp (- r * (T / INR N)) * held m' j)
  end.

End PathByPath.

End Spec.

(** ** The standard normal distribution function

    The sections of Part III are parametric in [norm_cdf].  To instantiate
    them the standard normal distribution function is built from its
    Maclaurin expansion
    [Phi x = 1/2 + x / sqrt (2 PI) * sum_n (-1)^n (x^2)^n / (n! 2^n (2n+1))],
    whose convergence follows from d'Alembert's ratio criterion: the ratio of
    two consecutive coefficients is [(2n+1) / (2 (n+1) (2n+3))] in absolute
    value, which is at most [1 / (n+1)]. *)

Definition gauss_coeff (n : nat) : R :=
  (-1) ^ n / (INR (fact n) * 2 ^ n * INR (2 * n + 1)).

Definition gauss_series (y : R) : {l : R | Pser gauss_coeff y l}.
Proof.
  apply Alembert_C3.
  - intros n. unfold gauss_coeff.
    assert (H1 : (-1) ^ n <> 0) by (apply pow_nonzero; lra).
    assert (H2 : INR (fact n) <> 0) by apply INR_fact_neq_0.
    assert (H3 : 2 ^ n <> 0) by (apply pow_nonzero; lra).
    assert (H4 : INR (2 * n + 1) <> 0) by (apply not_0_INR; lia).
    intro H. apply H1.
    apply (Rmult_eq_reg_r (/ (INR (fact n) * 2 ^ n * INR (2 * n + 1)))).
    + rewrite Rmult_0_l. exact H.
    + apply Rinv_neq_0_compat.
      repeat apply Rmult_integral_contrapositive_currified; assumption.
  - assert (Hratio : forall n,
               gauss_coeff (S n) / gauss_coeff n
               = - (INR (2 * n + 1) / (INR (S n) * 2 * INR (2 * n + 3)))).
    { intros n. unfold gauss_coeff.
      replace (2 * S n + 1)%nat with (2 * n + 3)%nat by lia.
      rewrite fact_simpl, mult_INR.
      assert (H1 : (-1) ^ n <> 0) by (apply pow_nonzero; lra).
      assert (H2 : INR (fact n) <> 0) by apply INR_fact_neq_0.
      assert (H3 : 2 ^ n <> 0) by (apply pow_nonzero; lra).
      assert (H4 : INR (2 * n + 1) <> 0) by (apply not_0_INR; lia).
      assert (H5 : INR (2 * n + 3) <> 0) by (apply not_0_INR; lia).
      assert (H6 : INR (S n) <> 0) by (apply not_0_INR; lia).
      simpl pow. field. repeat split; assumption. }
    assert (Hbound : forall n,
               Rabs (gauss_coeff (S n) / gauss_coeff n) <= / INR (S n)).
    { intros n. rewrite Hratio, Rabs_Ropp.
      assert (H1 : INR (2 * n + 1) = 2 * INR (S n) - 1).
      { rewrite plus_INR, mult_INR, (S_INR n). simpl INR. lra. }
      assert (H3 : INR (2 * n + 3) = 2 * INR (S n) + 1).
      { rewrite plus_INR, mult_INR, (S_INR n). simpl INR. lra. }
      rewrite H1, H3.
      assert (Hx : 1 <= INR (S n)).
      { rewrite S_INR. pose proof (pos_INR n). lra. }
      set (x := INR (S n)) in *.
      rewrite Rabs_pos_eq.
      - apply (Rmult_le_reg_r (x * 2 * (2 * x + 1))). { nra. }
        unfold Rdiv. rewrite Rmult_assoc, Rinv_l by nra.
        replace (/ x * (x * 2 * (2 * x + 1))) with (2 * (2 * x + 1))
          by (field; lra).
        nra.
      - apply Rmult_le_pos. { lra. }
        left. apply Rinv_0_lt_compat. nra. }
    intros eps Heps.
    destruct (archimed_cor1 eps Heps) as [N [HN HNpos]].
    exists N. intros n Hn.
    unfold Rdist. rewrite Rminus_0_r, Rabs_Rabsolu.
    eapply Rle_lt_trans; [apply Hbound|].
    eapply Rle_lt_trans; [|exact HN].
    apply Rinv_le_contravar.
    + apply lt_0_INR. exact HNpos.
    + apply le_INR. lia.
Defined.

Definition std_normal_cdf (x : R) : R :=
  1 / 2 + x * proj1_sig (gauss_series (x ^ 2)) / sqrt (2 * PI).

(** ** Loop invariants *)

(** [binomial_method]: after [m] passes of the loop over an array of
    [N + 1] entries, the first [N - m + 1] of them hold the values of the
    nodes of layer [N - m]. *)
Definition layer_inv (S0 K T r sigma : R) (N : nat) (k : Spec.kind)
  (m : nat) (V : list R) : Prop :=
  length V = (N + 1)%nat
  /\ forall j, (j + m <= N)%nat ->
               nth j V 0 = Spec.node_value S0 K T r sigma N k m j.

(** The simulation loop: once the rows up to [m] are written, they hold the
    prices of all paths after that many steps. *)
Definition rows_inv (S0 T r sigma : R) (N paths : nat) (g : rng)
  (m : nat) (S : list (list R)) : Prop :=
  length S = (N + 1)%nat
  /\ forall i, (i <= m)%nat ->
               nth i S [] = Spec.price_row S0 T r sigma N paths g i.

(** ** Pathwise maxima *)

(** The largest of [f 0 .. f n]. *)
Fixpoint max_upto (f : nat -> R) (n : nat) : R :=
  match n with
  | O => f 0%nat
  | S n' => Rmax (max_upto f n') (f n)
  end.

(** * Part III: properties *)

(** ** Small runs of the code *)

Example backward_step_three (disc p q a b c : R) :
  BSM.backward_step disc p q [a; b; c]
  = [disc * (p * b + q * a); disc * (p * c + q * b); c].
Proof. reflexivity. Qed.

Example binomial_method_one_step (S0 K T r sigma : R) :
  let dt := T / INR 1 in
  let u := exp (sigma * sqrt dt) in
  let d := 1 / u in
  let p := (exp (r * dt) - d) / (u - d) in
  BSM.binomial_method S0 K T r sigma 1 "call"
  = Return (exp (- r * dt)
            * (p * Rmax (S0 * u ^ 1 * d ^ 0 - K) 0
               + (1 - p) * Rmax (S0 * u ^ 0 * d ^ 1 - K) 0)).
Proof. reflexivity. Qed.

Example binomial_method_no_step (S0 K T r sigma : R) :
  BSM.binomial_method S0 K T r sigma 0 "call" = Raise "ZeroDivisionError".
Proof. reflexivity. Qed.

Example terminal_prices_two (S0 T r sigma : R) (g : rng) :
  BSM.terminal_prices S0 T r sigma 2 g
  = [S0 * exp (g 0%nat * (sigma * sqrt T) + (r - sigma ^ 2 / 2) * T);
     S0 * exp (g 1%nat * (sigma * sqrt T) + (r - sigma ^ 2 / 2) * T)].
Proof. reflexivity. Qed.

Example lower_upper_case : Greeks.lower "Call" = "call"%string.
Proof. reflexivity. Qed.

Example calculate_delta_upper_case (Phi : R -> R) (S0 K T r sigma : R) :
  Greeks.calculate_delta Phi S0 K T r sigma "PUT"
  = Greeks.calculate_delta Phi S0 K T r sigma "put".
Proof. reflexivity. Qed.

Example closed_formula_upper_case (Phi : R -> R) (S0 K T r sigma : R) :
  BSM.closed_formula Phi S0 K T r sigma "PUT" = ReturnNone.
Proof. reflexivity. Qed.

Example norm_rvs_2d_shape (g : rng) :
  norm_rvs_2d 0 1 2 3 g
  = [[g 0%nat * 1 + 0; g 1%nat * 1 + 0; g 2%nat * 1 + 0];
     [g 3%nat * 1 + 0; g 4%nat * 1 + 0; g 5%nat * 1 + 0]].
Proof. reflexivity. Qed.

Example simulate_paths_one_step (S0 T r sigma : R) (g : rng) :
  let dt := T / INR 1 in
  let grow := fun z =>
    exp ((r - sigma ^ 2 / 2) * dt + sigma * sqrt dt * (z * 1 + 0)) in
  American.simulate_paths S0 T r sigma 1 2 g
  = [[S0; S0]; [S0 * grow (g 0%nat); S0 * grow (g 1%nat)]].
Proof. reflexivity. Qed.

Example american_put_mc_one_path (S0 K T r sigma : R) (g : rng) :
  let dt := T / INR 1 in
  let S1 :=
    S0 * exp ((r - sigma ^ 2 / 2) * dt
              + sigma * sqrt dt * (g 0%nat * 1 + 0)) in
  fst (American.american_put_mc S0 K T r sigma 1 1 g)
  = np_mean [Rmax (Rmax (K - S0) 0) (exp (- r * dt) * Rmax (K - S1) 0)].
Proof. reflexivity. Qed.

(** ** The standard normal distribution function is symmetric *)

Lemma std_normal_cdf_reflect (x : R) :
  std_normal_cdf (- x) = 1 - std_normal_cdf x.
Proof.
  unfold std_normal_cdf.
  replace ((- x) ^ 2) with (x ^ 2) by ring.
  field. apply Rgt_not_eq. apply sqrt_lt_R0. pose proof PI_RGT_0. lra.
Qed.

Lemma std_normal_cdf_0 : std_normal_cdf 0 = 1 / 2.
Proof. unfold std_normal_cdf. unfold Rdiv. rewrite !Rmult_0_l. lra. Qed.

(** ** The closed formula and the Greeks *)

Section ClosedForm.

Variable norm_cdf : R -> R.
Hypothesis norm_cdf_reflect : forall x, norm_cdf (- x) = 1 - norm_cdf x.

(** The two notebooks hold the same [closed_formula]. *)
Lemma closed_formula_recalled (S0 K T r sigma : R) (payoff : string) :
  Greeks.closed_formula norm_cdf S0 K T r sigma payoff
  = BSM.closed_formula norm_cdf S0 K T r sigma payoff.
Proof. reflexivity. Qed.

(** What [closed_formula] computes on each branch, whatever the numbers. *)
Lemma closed_formula_call (S0 K T r sigma : R) :
  BSM.closed_formula norm_cdf S0 K T r sigma "call"
  = Return (Spec.call_price norm_cdf S0 K T r sigma).
Proof.
  unfold BSM.closed_formula, Spec.call_price, Spec.d2, Spec.d1. simpl.
  f_equal.
  replace (sigma * (sigma * 1)) with (sigma * sigma) by ring.
  replace (- r * T) with (- (r * T)) by ring.
  reflexivity.
Qed.

Lemma closed_formula_put (S0 K T r sigma : R) :
  BSM.closed_formula norm_cdf S0 K T r sigma "put"
  = Return (Spec.put_price norm_cdf S0 K T r sigma).
Proof.
  unfold BSM.closed_formula, Spec.put_price, Spec.d2, Spec.d1. simpl.
  f_equal.
  replace (sigma * (sigma * 1)) with (sigma * sigma) by ring.
  replace (- r * T) with (- (r * T)) by ring.
  reflexivity.
Qed.

Lemma closed_formula_other (S0 K T r sigma : R) (payoff : string) :
  payoff <> "call"%string -> payoff <> "put"%string ->
  BSM.closed_formula norm_cdf S0 K T r sigma payoff = ReturnNone.
Proof.
  intros Hc Hp. unfold BSM.closed_formula.
  apply String.eqb_neq in Hc. apply String.eqb_neq in Hp.
  rewrite Hc, Hp. reflexivity.
Qed.

(** C1.  With positive spot, strike, maturity and volatility,
    [closed_formula] returns [S0*Phi(d1) - K*e^{-rT}*Phi(d2)] for a call and
    [K*e^{-rT}*Phi(-d2) - S0*Phi(-d1)] for a put, with [d1] and [d2] the
    standard Black-Scholes quantities; the copy of the function in the Greeks
    notebook returns the same. *)
Theorem closed_formula_black_scholes (S0 K T r sigma : R) :
  0 < S0 -> 0 < K -> 0 < T -> 0 < sigma ->
  BSM.closed_formula norm_cdf S0 K T r sigma "call"
  = Return (S0 * norm_cdf (Spec.d1 S0 K T r sigma)
            - K * exp (- (r * T)) * norm_cdf (Spec.d2 S0 K T r sigma))
  /\ BSM.closed_formula norm_cdf S0 K T r sigma "put"
     = Return (K * exp (- (r * T)) * norm_cdf (- Spec.d2 S0 K T r sigma)
               - S0 * norm_cdf (- Spec.d1 S0 K T r sigma))
  /\ Greeks.closed_formula norm_cdf S0 K T r sigma "call"
     = BSM.closed_formula norm_cdf S0 K T r sigma "call"
  /\ Greeks.closed_formula norm_cdf S0 K T r sigma "put"
     = BSM.closed_formula norm_cdf S0 K T r sigma "put".
Proof.
  intros _ _ _ _.
  split; [apply closed_formula_call|].
  split; [apply closed_formula_put|].
  split; reflexivity.
Qed.

(** C4.  Put-call parity: the closed-form call price minus the closed-form
    put price is [S0 - K*e^{-rT}]. *)
Theorem put_call_parity (S0 K T r sigma : R) :
  0 < S0 -> 0 < K -> 0 < T -> 0 < sigma ->
  exists call put : R,
    BSM.closed_formula norm_cdf S0 K T r sigma "call" = Return call
    /\ BSM.closed_formula norm_cdf S0 K T r sigma "put" = Return put
    /\ call - put = S0 - K * exp (- (r * T)).
Proof.
  intros _ _ _ _.
  exists (Spec.call_price norm_cdf S0 K T r sigma),
         (Spec.put_price norm_cdf S0 K T r sigma).
  split; [apply closed_formula_call|].
  split; [apply closed_formula_put|].
  unfold Spec.call_price, Spec.put_price.
  rewrite !norm_cdf_reflect. ring.
Qed.

(** C10.  The put delta is the call delta minus one, and the gamma and the
    vega computed for the call and for the put are the same numbers, since
    [calculate_gamma] and [calculate_vega] have no payoff argument. *)
Theorem delta_parity_gamma_vega_shared (S0 K T r sigma : R) :
  0 < S0 -> 0 < K -> 0 < T -> 0 < sigma ->
  (exists delta_call : R,
      Greeks.calculate_delta norm_cdf S0 K T r sigma "call"
      = Return delta_call
      /\ delta_call = norm_cdf (Spec.d1 S0 K T r sigma)
      /\ Greeks.calculate_delta norm_cdf S0 K T r sigma "put"
         = Return (delta_call - 1))
  /\ Greeks.call_gamma S0 K T r sigma = Greeks.put_gamma S0 K T r sigma
  /\ Greeks.call_vega S0 K T r sigma = Greeks.put_vega S0 K T r sigma.
Proof.
  intros _ _ _ _. split; [|split; reflexivity].
  exists (norm_cdf (Spec.d1 S0 K T r sigma)).
  unfold Greeks.calculate_delta, Spec.d1. simpl.
  replace (sigma * (sigma * 1)) with (sigma * sigma) by ring.
  repeat split; reflexivity.
Qed.

End ClosedForm.

Lemma closed_formula_black_scholes_witness :
  BSM.closed_formula std_normal_cdf 100 100 1 (4 / 100) (1 / 5) "call"
  = Return (100 * std_normal_cdf (Spec.d1 100 100 1 (4 / 100) (1 / 5))
            - 100 * exp (- (4 / 100 * 1))
              * std_normal_cdf (Spec.d2 100 100 1 (4 / 100) (1 / 5)))
  /\ BSM.closed_formula std_normal_cdf 100 100 1 (4 / 100) (1 / 5) "put"
     = Return (100 * exp (- (4 / 100 * 1))
               * std_normal_cdf (- Spec.d2 100 100 1 (4 / 100) (1 / 5))
               - 100 * std_normal_cdf (- Spec.d1 100 100 1 (4 / 100) (1 / 5)))
  /\ Greeks.closed_formula std_normal_cdf 100 100 1 (4 / 100) (1 / 5) "call"
     = BSM.closed_formula std_normal_cdf 100 100 1 (4 / 100) (1 / 5) "call"
  /\ Greeks.closed_formula std_normal_cdf 100 100 1 (4 / 100) (1 / 5) "put"
     = BSM.closed_formula std_normal_cdf 100 100 1 (4 / 100) (1 / 5) "put".
Proof.
  apply (closed_formula_black_scholes std_normal_cdf
           100 100 1 (4 / 100) (1 / 5)); lra.
Defined.

Lemma put_call_parity_witness :
  exists call put : R,
    BSM.closed_formula std_normal_cdf 100 100 1 (4 / 100) (1 / 5) "call"
    = Return call
    /\ BSM.closed_formula std_normal_cdf 100 100 1 (4 / 100) (1 / 5) "put"
       = Return put
    /\ call - put = 100 - 100 * exp (- (4 / 100 * 1)).
Proof.
  apply (put_call_parity std_normal_cdf std_normal_cdf_reflect
           100 100 1 (4 / 100) (1 / 5)); lra.
Defined.

(** ** [closed_formula] on a non-positive volatility or maturity *)

Lemma is_zero_false (x : R) : x <> 0 -> Numpy.is_zero x = false.
Proof.
  intros Hx. unfold Numpy.is_zero.
  destruct (Req_dec_T x 0); [contradiction|reflexivity].
Qed.

Lemma is_zero_true (x : R) : x = 0 -> Numpy.is_zero x = true.
Proof.
  intros Hx. unfold Numpy.is_zero.
  destruct (Req_dec_T x 0); [reflexivity|contradiction].
Qed.

Lemma is_negative_false (x : R) : 0 <= x -> Numpy.is_negative x = false.
Proof.
  intros Hx. unfold Numpy.is_negative.
  destruct (Rlt_dec x 0); [lra|reflexivity].
Qed.

Lemma np_log_positive (x : R) :
  0 < x -> Numpy.np_log x = Numpy.Finite (ln x).
Proof.
  intros Hx. unfold Numpy.np_log.
  destruct (Rlt_dec 0 x); [reflexivity|contradiction].
Qed.

Lemma np_sqrt_nonneg (x : R) :
  0 <= x -> Numpy.np_sqrt x = Numpy.Finite (sqrt x).
Proof.
  intros Hx. unfold Numpy.np_sqrt.
  destruct (Rle_dec 0 x); [reflexivity|contradiction].
Qed.

Lemma np_sqrt_negative (x : R) : x < 0 -> Numpy.np_sqrt x = Numpy.NaN.
Proof.
  intros Hx. unfold Numpy.np_sqrt.
  destruct (Rle_dec 0 x); [lra|reflexivity].
Qed.

Example closed_formula_zero_strike (Phi : R -> R) (S0 T r sigma : R) :
  Numpy.closed_formula Phi false S0 0 T r sigma "call"
  = Raise "ZeroDivisionError".
Proof.
  unfold Numpy.closed_formula. now rewrite is_zero_true.
Qed.

Section SpecialValues.

Variable norm_cdf : R -> R.

(** Where every operation is inside its real domain, the two embeddings of
    [closed_formula] return the same number. *)
Lemma closed_formula_real_domain
  (minus_zero : bool) (S0 K T r sigma : R) (payoff : string) :
  0 < S0 -> 0 < K -> 0 < T -> sigma <> 0 ->
  Numpy.closed_formula norm_cdf minus_zero S0 K T r sigma payoff
  = match BSM.closed_formula norm_cdf S0 K T r sigma payoff with
    | Return price => Return (Numpy.Finite price)
    | ReturnNone => ReturnNone
    | Raise exc => Raise exc
    end.
Proof.
  intros HS0 HK HT Hsigma.
  assert (Hratio : 0 < S0 / K) by now apply Rdiv_lt_0_compat.
  assert (Hroot : 0 < sqrt T) by now apply sqrt_lt_R0.
  assert (Hden : sigma * sqrt T <> 0) by nra.
  unfold Numpy.closed_formula, BSM.closed_formula.
  rewrite (is_zero_false K) by lra.
  rewrite (np_log_positive _ Hratio), np_sqrt_nonneg by lra.
  cbn [Numpy.mul Numpy.add Numpy.div].
  rewrite (is_zero_false _ Hden).
  cbn [Numpy.mul Numpy.add Numpy.sub Numpy.neg Numpy.cdf].
  destruct (payoff =? "call")%string; [reflexivity|].
  destruct (payoff =? "put")%string; reflexivity.
Qed.

(** With a zero divisor [sigma * sqrt T] of positive sign and a positive
    numerator, [d1] and [d2] are [inf] and the call is priced at
    [S0 - K*e^{-rT}]. *)
Lemma closed_formula_zero_divisor (S0 K T r sigma : R) :
  0 < S0 -> 0 < K -> 0 <= T -> sigma * sqrt T = 0 ->
  0 < ln (S0 / K) + (r + sigma ^ 2 / 2) * T ->
  Numpy.closed_formula norm_cdf false S0 K T r sigma "call"
  = Return (Numpy.Finite (S0 - K * exp (- (r * T)))).
Proof.
  intros HS0 HK HT Hden Hnum.
  assert (Hratio : 0 < S0 / K) by now apply Rdiv_lt_0_compat.
  unfold Numpy.closed_formula.
  rewrite (is_zero_false K) by lra.
  rewrite (np_log_positive _ Hratio), np_sqrt_nonneg by exact HT.
  cbn [Numpy.mul Numpy.add Numpy.div].
  rewrite (is_zero_true _ Hden), is_zero_false, is_negative_false by lra.
  cbn. do 2 f_equal. replace (- r * T) with (- (r * T)) by ring. ring.
Qed.

(** C6, as the code has it.  For positive spot and strike,
    [closed_formula] raises no error on a non-positive [sigma] or [T].  It
    returns [nan] when [T < 0], and when the divisor [sigma * sqrt T] and
    the numerator [ln(S0/K) + (r + sigma^2/2)*T] of [d1] are both zero.  In
    every other case it returns a finite number: with a zero divisor and a
    non-zero numerator [d1] is [inf] or [-inf], by the signs of the
    numerator and of the zero, and the price is [S0 - K*e^{-rT}] or [0] for
    a call, [0] or [K*e^{-rT} - S0] for a put; with [sigma < 0] and
    [T > 0] the price is the value of the closed-form expressions at that
    [sigma]. *)
Theorem closed_formula_nonpositive_inputs
  (S0 K T r sigma : R) (k : Spec.kind) (minus_zero : bool) :
  0 < S0 -> 0 < K ->
  let result :=
    Numpy.closed_formula norm_cdf minus_zero S0 K T r sigma
      (Spec.selector k) in
  let numerator := ln (S0 / K) + (r + sigma * sigma / 2) * T in
  let d1_negative := xorb (Numpy.is_negative numerator) minus_zero in
  let limit :=
    match k, d1_negative with
    | Spec.Call, false => S0 - K * exp (- (r * T))
    | Spec.Call, true => 0
    | Spec.Put, false => 0
    | Spec.Put, true => K * exp (- (r * T)) - S0
    end in
  let price :=
    match k with
    | Spec.Call => Spec.call_price norm_cdf S0 K T r sigma
    | Spec.Put => Spec.put_price norm_cdf S0 K T r sigma
    end in
  (T < 0 -> result = Return Numpy.NaN)
  /\ (0 <= T -> sigma * sqrt T = 0 -> numerator = 0 ->
      result = Return Numpy.NaN)
  /\ (0 <= T -> sigma * sqrt T = 0 -> numerator <> 0 ->
      result = Return (Numpy.Finite limit))
  /\ (0 < T -> sigma < 0 -> result = Return (Numpy.Finite price)).
Proof.
  intros HS0 HK result numerator d1_negative limit price.
  assert (Hratio : 0 < S0 / K) by now apply Rdiv_lt_0_compat.
  assert (Hsq : sigma ^ 2 = sigma * sigma) by ring.
  assert (Hexp : - r * T = - (r * T)) by ring.
  unfold result, Numpy.closed_formula.
  rewrite (is_zero_false K) by lra.
  rewrite (np_log_positive _ Hratio), Hsq, Hexp.
  cbn [Numpy.add]. fold numerator.
  split; [|split; [|split]].
  - intros HT. rewrite np_sqrt_negative by exact HT.
    destruct k; reflexivity.
  - intros HT Hden Hnum. rewrite np_sqrt_nonneg by exact HT.
    cbn [Numpy.mul Numpy.div].
    rewrite (is_zero_true _ Hden), (is_zero_true _ Hnum).
    destruct k; reflexivity.
  - intros HT Hden Hnum. rewrite np_sqrt_nonneg by exact HT.
    cbn [Numpy.mul Numpy.div].
    rewrite (is_zero_true _ Hden), (is_zero_false _ Hnum).
    unfold limit. fold d1_negative.
    destruct d1_negative, k;
      cbn [Numpy.signed_inf Numpy.sub Numpy.neg Numpy.add Numpy.cdf
           Numpy.mul Spec.selector String.eqb Ascii.eqb Bool.eqb];
      do 2 f_equal; ring.
  - intros HT Hsigma. rewrite np_sqrt_nonneg by lra.
    assert (Hroot : 0 < sqrt T) by now apply sqrt_lt_R0.
    cbn [Numpy.mul Numpy.div].
    rewrite is_zero_false by nra.
    unfold price, Spec.call_price, Spec.put_price, Spec.d2, Spec.d1.
    fold numerator.
    destruct k; reflexivity.
Qed.

End SpecialValues.

Lemma closed_formula_nonpositive_inputs_witness :
  let result :=
    Numpy.closed_formula std_normal_cdf false 100 100 1 (4 / 100)
      (- (1 / 5)) "call" in
  let numerator :=
    ln (100 / 100) + (4 / 100 + - (1 / 5) * - (1 / 5) / 2) * 1 in
  let d1_negative := xorb (Numpy.is_negative numerator) false in
  let limit :=
    match d1_negative with
    | false => 100 - 100 * exp (- (4 / 100 * 1))
    | true => 0
    end in
  (1 < 0 -> result = Return Numpy.NaN)
  /\ (0 <= 1 -> - (1 / 5) * sqrt 1 = 0 -> numerator = 0 ->
      result = Return Numpy.NaN)
  /\ (0 <= 1 -> - (1 / 5) * sqrt 1 = 0 -> numerator <> 0 ->
      result = Return (Numpy.Finite limit))
  /\ (0 < 1 -> - (1 / 5) < 0 ->
      result
      = Return (Numpy.Finite
                  (Spec.call_price std_normal_cdf 100 100 1 (4 / 100)
                     (- (1 / 5))))).
Proof.
  apply (closed_formula_nonpositive_inputs std_normal_cdf
           100 100 1 (4 / 100) (- (1 / 5)) Spec.Call false); lra.
Defined.

(** C6, as the specification words it, fails: a call returns a number with
    the negative volatility [-1/5], with the volatility [0] and with the
    maturity [0] (both zeros being the positive zero [0.0]). *)
Lemma closed_formula_accepts_nonpositive_inputs :
  (- (1 / 5) <= 0
   /\ exists price : R,
        BSM.closed_formula std_normal_cdf 100 100 1 (4 / 100) (- (1 / 5))
          "call"
        = Return price)
  /\ (exists price : R,
        Numpy.closed_formula std_normal_cdf false 100 100 1 (4 / 100)
          (- (1 / 5)) "call"
        = Return (Numpy.Finite price))
  /\ Numpy.closed_formula std_normal_cdf false 100 100 1 (4 / 100) 0 "call"
     = Return (Numpy.Finite (100 - 100 * exp (- (4 / 100 * 1))))
  /\ Numpy.closed_formula std_normal_cdf false 110 100 0 (4 / 100) (1 / 5)
       "call"
     = Return (Numpy.Finite (110 - 100 * exp (- (4 / 100 * 0)))).
Proof.
  split; [split; [lra|eexists; apply closed_formula_call]|].
  split; [|split].
  - rewrite closed_formula_real_domain by lra.
    rewrite closed_formula_call. eexists. reflexivity.
  - apply closed_formula_zero_divisor; try lra.
    replace (100 / 100) with 1 by field. rewrite ln_1. lra.
  - apply closed_formula_zero_divisor; try lra.
    + rewrite sqrt_0. ring.
    + pose proof (ln_increasing 1 (110 / 100) ltac:(lra) ltac:(lra)) as H.
      rewrite ln_1 in H. lra.
Qed.

Lemma delta_parity_gamma_vega_shared_witness :
  (exists delta_call : R,
      Greeks.calculate_delta std_normal_cdf 100 100 1 (4 / 100) (1 / 5) "call"
      = Return delta_call
      /\ delta_call = std_normal_cdf (Spec.d1 100 100 1 (4 / 100) (1 / 5))
      /\ Greeks.calculate_delta std_normal_cdf 100 100 1 (4 / 100) (1 / 5) "put"
         = Return (delta_call - 1))
  /\ Greeks.call_gamma 100 100 1 (4 / 100) (1 / 5)
     = Greeks.put_gamma 100 100 1 (4 / 100) (1 / 5)
  /\ Greeks.call_vega 100 100 1 (4 / 100) (1 / 5)
     = Greeks.put_vega 100 100 1 (4 / 100) (1 / 5).
Proof.
  apply (delta_parity_gamma_vega_shared std_normal_cdf
           100 100 1 (4 / 100) (1 / 5)); lra.
Defined.

(** ** Array lemmas *)

Section Arrays.

Context {A B C : Type}.

Lemma length_map2 (f : A -> B -> C) (xs : list A) (ys : list B) :
  length (map2 f xs ys) = Nat.min (length xs) (length ys).
Proof.
  revert ys. induction xs as [|x xs IH]; intros [|y ys]; simpl; auto.
Qed.

Lemma nth_map2 (f : A -> B -> C) (xs : list A) (ys : list B)
      (j : nat) (da : A) (db : B) (dc : C) :
  (j < length xs)%nat -> (j < length ys)%nat ->
  nth j (map2 f xs ys) dc = f (nth j xs da) (nth j ys db).
Proof.
  revert ys j. induction xs as [|x xs IH]; intros [|y ys] [|j]; simpl;
    try lia; auto.
  intros Hx Hy. apply IH; lia.
Qed.

Lemma map2_map_same {X : Type} (f : A -> B -> C) (a : X -> A) (b : X -> B)
      (l : list X) :
  map2 f (map a l) (map b l) = map (fun x => f (a x) (b x)) l.
Proof. induction l as [|x l IH]; simpl; [reflexivity|now rewrite IH]. Qed.

Lemma nth_tl (l : list A) (j : nat) (d : A) :
  nth j (tl l) d = nth (S j) l d.
Proof. destruct l; [destruct j|]; reflexivity. Qed.

Lemma length_removelast (l : list A) :
  length (removelast l) = (length l - 1)%nat.
Proof.
  induction l as [|x [|y l] IH]; simpl in *; auto. lia.
Qed.

Lemma nth_removelast (l : list A) (j : nat) (d : A) :
  (j < length l - 1)%nat -> nth j (removelast l) d = nth j l d.
Proof.
  revert j. induction l as [|x [|y l] IH]; intros j Hj; simpl in *; try lia.
  destruct j as [|j]; [reflexivity|]. apply IH. lia.
Qed.

Lemma fold_left_ignore {X : Type} (f : A -> A) (l : list X) (a : A) :
  fold_left (fun acc (_ : X) => f acc) l a = Nat.iter (length l) f a.
Proof.
  revert a. induction l as [|x l IH]; intros a; simpl; [reflexivity|].
  rewrite IH. symmetry. apply Nat.iter_succ_r.
Qed.

End Arrays.

Lemma assign_all_same_shape (V rhs : list R) :
  length V = length rhs -> assign_all V rhs = rhs.
Proof.
  unfold assign_all. revert rhs.
  induction V as [|v V IH]; intros [|x rhs] Hlen; simpl in *;
    try discriminate; [reflexivity|].
  f_equal. apply IH. lia.
Qed.

Lemma nth_map_in {A : Type} (f : A -> R) (l : list A) (j : nat) (d : A) :
  (j < length l)%nat -> nth j (map f l) 0 = f (nth j l d).
Proof.
  intros Hj. rewrite (nth_indep _ 0 (f d)) by (now rewrite length_map).
  apply map_nth.
Qed.

(** ** The binomial tree *)

Section Binomial.

Variables (S0 K T r sigma : R) (n : nat) (k : Spec.kind).

(** A positive number of steps. *)
Let N : nat := S n.
Let disc : R := exp (- r * Spec.dt T N).
Let p : R := Spec.p T r sigma N.
Let step : list R -> list R := BSM.backward_step disc p (1 - p).
Let inv : nat -> list R -> Prop := layer_inv S0 K T r sigma N k.

(** The terminal prices and the array of terminal payoffs that the branch on
    [payoff] assigns. *)
Let ST : list R :=
  map (fun j => S0 * Spec.u T sigma N ^ j * Spec.d T sigma N ^ (N - j))
      (seq 0 (N + 1)).
Let terminal : list R := map (Spec.payoff_at k K) ST.

Lemma layer_inv_terminal : inv 0 terminal.
Proof.
  split.
  - unfold terminal, ST. now rewrite !length_map, length_seq.
  - intros j Hj. unfold terminal, ST. rewrite map_map.
    rewrite (nth_map_in _ _ _ 0%nat) by (rewrite length_seq; lia).
    rewrite seq_nth by lia. reflexivity.
Qed.

Lemma layer_inv_step (m : nat) (V : list R) :
  (m < N)%nat -> inv m V -> inv (S m) (step V).
Proof.
  intros Hm [Hlen Hval]. unfold step, BSM.backward_step. split.
  - rewrite length_app, length_map2, length_tl, length_removelast,
      length_skipn. lia.
  - intros j Hj.
    rewrite app_nth1
      by (rewrite length_map2, length_tl, length_removelast; lia).
    rewrite (nth_map2 _ _ _ _ 0 0)
      by (rewrite ?length_tl, ?length_removelast; lia).
    rewrite nth_tl, nth_removelast by lia.
    rewrite !Hval by lia.
    simpl Spec.node_value.
    replace (j + 1)%nat with (S j) by lia.
    unfold disc, p.
    replace (- r * Spec.dt T N) with (- (r * Spec.dt T N)) by ring.
    reflexivity.
Qed.

Lemma layer_inv_iter (m : nat) :
  (m <= N)%nat -> inv m (Nat.iter m step terminal).
Proof.
  intros Hm. induction m as [|m IH]; [exact layer_inv_terminal|].
  simpl. apply layer_inv_step; [lia|]. apply IH. lia.
Qed.

Lemma layer_inv_root (V : list R) :
  inv N V -> exists rest, V = Spec.root_value S0 K T r sigma N k :: rest.
Proof.
  intros [Hlen Hval]. destruct V as [|v0 rest]; [simpl in Hlen; lia|].
  exists rest. f_equal. apply (Hval 0%nat). lia.
Qed.

(** After [N] passes the first entry of [V] is the root of the tree. *)
Lemma backward_loop_root :
  exists rest,
    fold_left (fun V (_ : nat) => step V) (rev (seq 0 N)) terminal
    = Spec.root_value S0 K T r sigma N k :: rest.
Proof.
  rewrite fold_left_ignore, length_rev, length_seq.
  apply layer_inv_root. apply layer_inv_iter. lia.
Qed.

End Binomial.

(** [binomial_method] returns the root of the tree for every step count
    [N >= 1], whatever the numbers. *)
Lemma binomial_method_root (S0 K T r sigma : R) (N : nat) (k : Spec.kind) :
  (1 <= N)%nat ->
  BSM.binomial_method S0 K T r sigma N (Spec.selector k)
  = Return (Spec.root_value S0 K T r sigma N k).
Proof.
  intros HN. destruct N as [|n]; [lia|].
  destruct (backward_loop_root S0 K T r sigma n k) as [rest Hrest].
  cbv zeta in Hrest.
  unfold BSM.binomial_method.
  fold (Spec.dt T (S n)). fold (Spec.u T sigma (S n)).
  fold (Spec.d T sigma (S n)). fold (Spec.p T r sigma (S n)).
  cbv zeta.
  destruct k; unfold Spec.selector; cbn [String.eqb Ascii.eqb Bool.eqb];
    (rewrite assign_all_same_shape
      by (unfold np_maximum_scalar;
          now rewrite repeat_length, !length_map, length_seq));
    unfold np_maximum_scalar; rewrite map_map;
    unfold Spec.payoff_at in Hrest; rewrite Hrest; reflexivity.
Qed.

(** The tree of the specification on one and on two steps, written out. *)
Example root_value_one_step (S0 K T r sigma : R) (k : Spec.kind) :
  Spec.root_value S0 K T r sigma 1 k
  = exp (- (r * (T / 1)))
    * (Spec.p T r sigma 1
       * Spec.payoff_at k K (S0 * Spec.u T sigma 1)
       + (1 - Spec.p T r sigma 1)
         * Spec.payoff_at k K (S0 * Spec.d T sigma 1)).
Proof.
  unfold Spec.root_value, Spec.node_value, Spec.dt. simpl.
  rewrite !Rmult_1_r. reflexivity.
Qed.

Example root_value_two_steps (S0 K T r sigma : R) :
  let u := Spec.u T sigma 2 in
  let d := Spec.d T sigma 2 in
  let p := Spec.p T r sigma 2 in
  let disc := exp (- (r * Spec.dt T 2)) in
  Spec.root_value S0 K T r sigma 2 Spec.Put
  = disc * (p * (disc * (p * Rmax (K - S0 * (u * u)) 0
                         + (1 - p) * Rmax (K - S0 * u * d) 0))
            + (1 - p) * (disc * (p * Rmax (K - S0 * u * d) 0
                                 + (1 - p) * Rmax (K - S0 * (d * d)) 0))).
Proof.
  unfold Spec.root_value, Spec.node_value, Spec.payoff_at. simpl.
  rewrite !Rmult_1_r. reflexivity.
Qed.

(** C2.  For positive spot, strike, maturity and volatility and [N >= 1]
    steps, [binomial_method] returns the root value of the [N]-step
    recombining tree: terminal nodes carry the payoff at [S0*u^j*d^(N-j)],
    and every interior node carries
    [e^{-r*dt} * (p*V_up + (1-p)*V_down)]. *)
Theorem binomial_method_backward_induction
  (S0 K T r sigma : R) (N : nat) (k : Spec.kind) :
  0 < S0 -> 0 < K -> 0 < T -> 0 < sigma -> (1 <= N)%nat ->
  BSM.binomial_method S0 K T r sigma N (Spec.selector k)
  = Return (Spec.root_value S0 K T r sigma N k).
Proof. intros _ _ _ _ HN. now apply binomial_method_root. Qed.

Lemma binomial_method_backward_induction_witness :
  BSM.binomial_method 100 100 1 (4 / 100) (1 / 5) 3 "put"
  = Return (Spec.root_value 100 100 1 (4 / 100) (1 / 5) 3 Spec.Put).
Proof.
  apply (binomial_method_backward_induction
           100 100 1 (4 / 100) (1 / 5) 3 Spec.Put); try lra; lia.
Defined.

(** The up-probability exceeds one as soon as the drift of a step outgrows
    its volatility. *)
Lemma p_above_one (T r sigma : R) (N : nat) :
  0 < sigma * sqrt (Spec.dt T N) ->
  sigma * sqrt (Spec.dt T N) < r * Spec.dt T N ->
  1 < Spec.p T r sigma N.
Proof.
  intros Ha Hab. unfold Spec.p, Spec.d, Spec.u.
  set (a := sigma * sqrt (Spec.dt T N)) in *.
  set (b := r * Spec.dt T N) in *.
  assert (H1 : 1 < exp a) by (rewrite <- exp_0; now apply exp_increasing).
  assert (H2 : exp a < exp b) by now apply exp_increasing.
  assert (H3 : 1 / exp a < 1).
  { apply (Rmult_lt_reg_r (exp a)); [lra|].
    unfold Rdiv. rewrite Rmult_assoc, Rinv_l by lra. lra. }
  apply (Rmult_lt_reg_r (exp a - 1 / exp a)); [lra|].
  unfold Rdiv at 2. rewrite Rmult_assoc, Rinv_l by lra. lra.
Qed.

Lemma p_above_one_example : 1 < Spec.p 1 2 1 1.
Proof.
  assert (Hdt : Spec.dt 1 1 = 1) by (unfold Spec.dt; simpl; field).
  apply p_above_one; rewrite Hdt, sqrt_1; lra.
Qed.

(** C7, as the code has it.  [binomial_method] never inspects [p]: also when
    [p] lies outside [[0,1]] it runs the backward induction to its end and
    returns the root value computed with that [p]. *)
Theorem binomial_method_unchecked_probability
  (S0 K T r sigma : R) (N : nat) (k : Spec.kind) :
  0 < S0 -> 0 < K -> 0 < T -> 0 < sigma -> (1 <= N)%nat ->
  ~ (0 <= Spec.p T r sigma N <= 1) ->
  BSM.binomial_method S0 K T r sigma N (Spec.selector k)
  = Return (Spec.root_value S0 K T r sigma N k).
Proof. intros _ _ _ _ HN _. now apply binomial_method_root. Qed.

Lemma binomial_method_unchecked_probability_witness :
  BSM.binomial_method 100 100 1 2 1 1 "call"
  = Return (Spec.root_value 100 100 1 2 1 1 Spec.Call).
Proof.
  apply (binomial_method_unchecked_probability 100 100 1 2 1 1 Spec.Call);
    try lra; try lia.
  pose proof p_above_one_example. lra.
Defined.

(** C7, as the specification words it, fails: with [r = 2], [sigma = 1],
    [T = 1] and one step the up-probability is above one, and the call
    returns a number. *)
Lemma binomial_method_ignores_probability :
  ~ (0 <= Spec.p 1 2 1 1 <= 1)
  /\ exists price : R,
       BSM.binomial_method 100 100 1 2 1 1 "call" = Return price.
Proof.
  split.
  - pose proof p_above_one_example. lra.
  - eexists. apply (binomial_method_root 100 100 1 2 1 1 Spec.Call). lia.
Qed.

(** ** Unsupported payoff selectors *)

Lemma monte_carlo_method_other
  (S0 K T r sigma : R) (M : nat) (payoff : string) (g : rng) :
  payoff <> "call"%string -> payoff <> "put"%string ->
  BSM.monte_carlo_method S0 K T r sigma M payoff g = Raise "ValueError".
Proof.
  intros Hc Hp. unfold BSM.monte_carlo_method.
  apply String.eqb_neq in Hc. apply String.eqb_neq in Hp.
  rewrite Hc, Hp. reflexivity.
Qed.

Lemma binomial_method_other
  (S0 K T r sigma : R) (N : nat) (payoff : string) :
  (1 <= N)%nat -> payoff <> "call"%string -> payoff <> "put"%string ->
  BSM.binomial_method S0 K T r sigma N payoff = Raise "ValueError".
Proof.
  intros HN Hc Hp. destruct N as [|n]; [lia|]. unfold BSM.binomial_method.
  apply String.eqb_neq in Hc. apply String.eqb_neq in Hp.
  rewrite Hc, Hp. reflexivity.
Qed.

(** C5.  On the selector ["straddle"] the two pricers that end their branch
    chain with [else: raise ValueError] raise, whereas [closed_formula],
    whose chain has no [else], returns [None] without any error. *)
Theorem closed_formula_silent_on_unknown_payoff :
  BSM.monte_carlo_method 100 100 1 (4 / 100) (1 / 5) 3 "straddle" (fun _ => 0)
  = Raise "ValueError"
  /\ BSM.binomial_method 100 100 1 (4 / 100) (1 / 5) 3 "straddle"
     = Raise "ValueError"
  /\ BSM.closed_formula std_normal_cdf 100 100 1 (4 / 100) (1 / 5) "straddle"
     = ReturnNone.
Proof.
  split; [|split].
  - apply monte_carlo_method_other; discriminate.
  - apply binomial_method_other; [lia|discriminate|discriminate].
  - apply closed_formula_other; discriminate.
Qed.

(** ** Mean and standard error of the Monte Carlo estimate *)

Lemma sum_upto_ext (f h : nat -> R) (n : nat) :
  (forall i, (i < n)%nat -> f i = h i) ->
  Spec.sum_upto f n = Spec.sum_upto h n.
Proof.
  intros Hfh. induction n as [|n IH]; simpl; [reflexivity|].
  rewrite IH, Hfh by auto. reflexivity.
Qed.

Lemma sum_upto_shift (f : nat -> R) (n : nat) :
  Spec.sum_upto f (S n) = f 0%nat + Spec.sum_upto (fun i => f (S i)) n.
Proof.
  induction n as [|n IH]; simpl in *; [ring|]. rewrite IH. ring.
Qed.

Lemma sum_upto_le (f h : nat -> R) (n : nat) :
  (forall i, (i < n)%nat -> f i <= h i) ->
  Spec.sum_upto f n <= Spec.sum_upto h n.
Proof.
  intros Hfh. induction n as [|n IH]; simpl; [lra|].
  apply Rplus_le_compat; auto.
Qed.

(** [np.sum] over an array that was produced elementwise is the indexed
    sum of the elements. *)
Lemma np_sum_map {A : Type} (f : A -> R) (l : list A) (d : A) :
  np_sum (map f l) = Spec.sum_upto (fun i => f (nth i l d)) (length l).
Proof.
  induction l as [|a l IH]; [reflexivity|].
  simpl length. rewrite sum_upto_shift. simpl. now rewrite <- IH.
Qed.

Lemma np_mean_map {A : Type} (f : A -> R) (l : list A) (d : A) :
  np_mean (map f l) = Spec.mean (fun i => f (nth i l d)) (length l).
Proof.
  unfold np_mean, Spec.mean. now rewrite length_map, (np_sum_map f l d).
Qed.

Lemma ss_sem_map {A : Type} (f : A -> R) (l : list A) (d : A) :
  ss_sem (map f l)
  = Spec.sample_std (fun i => f (nth i l d)) (length l)
    / sqrt (INR (length l)).
Proof.
  unfold ss_sem, Spec.sample_std.
  rewrite (np_mean_map f l d), map_map, length_map.
  rewrite (np_sum_map _ l d).
  f_equal. f_equal. f_equal. apply sum_upto_ext. intros i _. ring.
Qed.

Lemma discounted_payoffs (k : Spec.kind) (K r T : R) (ST : list R) :
  map (Rmult (exp (- r * T)))
      (np_maximum_scalar
         (map (fun s => match k with
                        | Spec.Call => s - K
                        | Spec.Put => K - s
                        end) ST) 0)
  = map (fun s => exp (- (r * T)) * Spec.payoff_at k K s) ST.
Proof.
  unfold np_maximum_scalar. rewrite !map_map.
  replace (- r * T) with (- (r * T)) by ring.
  apply map_ext. intros s. destruct k; reflexivity.
Qed.

Lemma length_terminal_prices (S0 T r sigma : R) (M : nat) (g : rng) :
  length (BSM.terminal_prices S0 T r sigma M g) = M.
Proof.
  unfold BSM.terminal_prices, norm_rvs.
  now rewrite !length_map, length_seq.
Qed.

(** Every vector of positive prices is the terminal vector of some stream of
    draws. *)
Lemma terminal_prices_realised (S0 T r sigma : R) (ST : list R) :
  0 < S0 -> 0 < T -> 0 < sigma -> Forall (fun s => 0 < s) ST ->
  exists g : rng, BSM.terminal_prices S0 T r sigma (length ST) g = ST.
Proof.
  intros HS0 HT Hsigma Hpos.
  assert (Hroot : sqrt T <> 0) by (apply Rgt_not_eq; now apply sqrt_lt_R0).
  assert (Hvol : sigma <> 0) by lra.
  exists (fun i => (ln (nth i ST 1 / S0) - (r - sigma ^ 2 / 2) * T)
                   / (sigma * sqrt T)).
  unfold BSM.terminal_prices, norm_rvs. rewrite map_map.
  apply (nth_ext _ _ 0 0).
  - now rewrite length_map, length_seq.
  - intros i Hi. rewrite length_map, length_seq in Hi.
    rewrite (nth_map_in _ _ _ 0%nat) by (now rewrite length_seq).
    rewrite seq_nth by lia. simpl Nat.add.
    assert (Hs : 0 < nth i ST 1).
    { rewrite Forall_forall in Hpos. apply Hpos. now apply nth_In. }
    replace (_ / (sigma * sqrt T) * (sigma * sqrt T) + (r - sigma ^ 2 / 2) * T)
      with (ln (nth i ST 1 / S0)) by (field; split; assumption).
    rewrite exp_ln by (apply Rdiv_lt_0_compat; lra).
    rewrite (nth_indep ST 0 1 Hi). field. lra.
Qed.

(** C3.  For the realised draws [g], with [ST_1 .. ST_M] the sampled
    terminal prices, [monte_carlo_method] returns the arithmetic mean of the
    [M] discounted payoffs [e^{-rT} * max(ST_i - K, 0)] (call) or
    [e^{-rT} * max(K - ST_i, 0)] (put), together with their sample standard
    deviation divided by [sqrt M].  (For [M = 1] the sample standard
    deviation is the quotient [0 / 0] on both sides of the equation; numpy
    reports [nan] there.) *)
Theorem monte_carlo_mean_and_standard_error
  (S0 K T r sigma : R) (M : nat) (k : Spec.kind) (g : rng) :
  0 < S0 -> 0 < K -> 0 < T -> 0 < sigma -> (1 <= M)%nat ->
  let ST := BSM.terminal_prices S0 T r sigma M g in
  let x := fun i => exp (- (r * T)) * Spec.payoff_at k K (nth i ST 0) in
  length ST = M
  /\ BSM.monte_carlo_method S0 K T r sigma M (Spec.selector k) g
     = Return (Spec.mean x M, Spec.sample_std x M / sqrt (INR M)).
Proof.
  intros _ _ _ _ _ ST x.
  assert (Hlen : length ST = M) by apply length_terminal_prices.
  split; [exact Hlen|].
  pose proof (discounted_payoffs k K r T ST) as Hpay.
  unfold BSM.monte_carlo_method. fold ST.
  destruct k; cbv beta iota in Hpay; unfold Spec.selector;
    cbn [String.eqb Ascii.eqb Bool.eqb]; cbv zeta; rewrite Hpay;
    rewrite (np_mean_map _ ST 0), (ss_sem_map _ ST 0), Hlen;
    reflexivity.
Qed.

Lemma monte_carlo_mean_and_standard_error_witness :
  let ST := BSM.terminal_prices 100 1 (4 / 100) (1 / 5) 3 (fun i => INR i) in
  let x := fun i =>
    exp (- (4 / 100 * 1)) * Spec.payoff_at Spec.Call 100 (nth i ST 0) in
  length ST = 3%nat
  /\ BSM.monte_carlo_method 100 100 1 (4 / 100) (1 / 5) 3 "call"
       (fun i => INR i)
     = Return (Spec.mean x 3, Spec.sample_std x 3 / sqrt (INR 3)).
Proof.
  apply (monte_carlo_mean_and_standard_error
           100 100 1 (4 / 100) (1 / 5) 3 Spec.Call (fun i => INR i));
    try lra; lia.
Defined.


(** ** Simulated paths of the American notebook *)

Lemma nth_map_seq {A : Type} (f : nat -> A) (n i : nat) (d : A) :
  (i < n)%nat -> nth i (map f (seq 0 n)) d = f i.
Proof.
  intros Hi. rewrite (nth_indep _ d (f 0%nat))
    by (now rewrite length_map, length_seq).
  rewrite map_nth, seq_nth by exact Hi. reflexivity.
Qed.

Lemma repeat_map_seq {A : Type} (x : A) (n start : nat) :
  repeat x n = map (fun _ => x) (seq start n).
Proof.
  revert start. induction n as [|n IH]; intros start; simpl;
    [reflexivity|now rewrite <- IH].
Qed.

Lemma last_nth_length {A : Type} (l : list A) (n : nat) (d : A) :
  length l = S n -> last l d = nth n l d.
Proof.
  revert n. induction l as [|a l IH]; intros n Hn; [discriminate|].
  destruct l as [|b l].
  - simpl in Hn. injection Hn as <-. reflexivity.
  - destruct n as [|n]; [discriminate|].
    change (last (b :: l) d = nth n (b :: l) d). apply IH.
    simpl in *. lia.
Qed.

Lemma length_set_row {A : Type} (i : nat) (row : A) (m : list A) :
  length (American.set_row i row m) = length m.
Proof.
  revert i. induction m as [|x m IH]; intros [|i]; simpl; auto.
Qed.

Lemma nth_set_row_eq {A : Type} (i : nat) (row : A) (m : list A) (d : A) :
  (i < length m)%nat -> nth i (American.set_row i row m) d = row.
Proof.
  revert i. induction m as [|x m IH]; intros [|i] Hi; simpl in *;
    try lia; auto.
  apply IH. lia.
Qed.

Lemma nth_set_row_neq {A : Type} (i j : nat) (row : A) (m : list A) (d : A) :
  i <> j -> nth j (American.set_row i row m) d = nth j m d.
Proof.
  revert i j. induction m as [|x m IH]; intros [|i] [|j] Hij; simpl;
    try reflexivity; try lia.
  apply IH. lia.
Qed.

Lemma exp_pow_INR (x : R) (n : nat) : exp x ^ n = exp (INR n * x).
Proof.
  induction n as [|n IH].
  - simpl. now rewrite Rmult_0_l, exp_0.
  - rewrite S_INR. simpl. rewrite IH, <- exp_plus. f_equal. ring.
Qed.

(** The recursion of the specification in closed form, for any sequence of
    increments. *)
Lemma gbm_closed_form (S0 r sigma dt : R) (Z : nat -> R) (i : nat) :
  Spec.gbm S0 r sigma dt Z i
  = S0 * exp (INR i * ((r - sigma * sigma / 2) * dt)
              + sigma * sqrt dt * Spec.sum_upto Z i).
Proof.
  induction i as [|i IH].
  - simpl. replace (0 * _ + _ * 0) with 0 by ring. rewrite exp_0. ring.
  - rewrite S_INR. simpl Spec.gbm. simpl Spec.sum_upto.
    rewrite IH, Rmult_assoc, <- exp_plus. f_equal. f_equal. ring.
Qed.

Section Paths.

Variables (S0 K T r sigma : R) (N paths : nat) (g : rng).

Let dt : R := T / INR N.
Let Z : list (list R) := norm_rvs_2d 0 1 N paths g.
Let row : nat -> list R := Spec.price_row S0 T r sigma N paths g.
Let inv : nat -> list (list R) -> Prop := rows_inv S0 T r sigma N paths g.

(** The body of the simulation loop. *)
Let fill : list (list R) -> nat -> list (list R) :=
  fun S i =>
    American.set_row i
      (map2 Rmult (nth (i - 1) S [])
         (map (fun z => exp ((r - sigma ^ 2 / 2) * dt + sigma * sqrt dt * z))
              (nth (i - 1) Z [])))
      S.

Lemma rows_inv_init :
  inv 0
    (American.set_row 0 (repeat S0 paths) (repeat (repeat 0 paths) (N + 1))).
Proof.
  split.
  - now rewrite length_set_row, repeat_length.
  - intros i Hi. replace i with 0%nat by lia.
    rewrite nth_set_row_eq by (rewrite repeat_length; lia).
    unfold Spec.price_row. simpl Spec.gbm. apply repeat_map_seq.
Qed.

Lemma rows_inv_fill (m : nat) (S : list (list R)) :
  (m < N)%nat -> inv m S -> inv (Datatypes.S m) (fill S (Datatypes.S m)).
Proof.
  intros Hm [Hlen Hrows]. unfold fill. split.
  - now rewrite length_set_row.
  - intros i Hi. destruct (Nat.eq_dec i (Datatypes.S m)) as [->|Hne].
    + rewrite nth_set_row_eq by lia.
      replace (Datatypes.S m - 1)%nat with m by lia.
      rewrite Hrows by lia.
      unfold Z, norm_rvs_2d. rewrite nth_map_seq by exact Hm.
      unfold Spec.price_row. rewrite map_map, map2_map_same.
      apply map_ext. intros j. simpl Spec.gbm. unfold Spec.increments.
      simpl pow. rewrite !Rmult_1_r, Rplus_0_r. reflexivity.
    + rewrite nth_set_row_neq by lia. apply Hrows. lia.
Qed.

Lemma rows_inv_loop (m : nat) (S : list (list R)) :
  (m <= N)%nat -> inv 0 S -> inv m (fold_left fill (seq 1 m) S).
Proof.
  intros Hm H0. induction m as [|m IH]; [exact H0|].
  rewrite seq_S, fold_left_app. simpl fold_left.
  apply rows_inv_fill; [lia|]. apply IH. lia.
Qed.

(** Every row of the simulated array holds the recursion of the
    specification, run on each path. *)
Lemma simulate_paths_rows :
  inv N (American.simulate_paths S0 T r sigma N paths g).
Proof.
  unfold American.simulate_paths.
  apply (rows_inv_loop N); [lia|apply rows_inv_init].
Qed.

Lemma simulate_paths_last :
  last (American.simulate_paths S0 T r sigma N paths g) [] = row N.
Proof.
  destruct simulate_paths_rows as [Hlen Hrows].
  rewrite (last_nth_length _ N) by (rewrite Hlen; lia).
  apply Hrows. lia.
Qed.

(** Backward induction of the cell, path by path. *)
Let disc : R := exp (- r * dt).
Let intrinsic : nat -> nat -> R := Spec.intrinsic S0 K T r sigma N paths g.
Let held : nat -> nat -> R := Spec.held S0 K T r sigma N paths g.

Let payoffs : list (list R) :=
  map (fun row => np_maximum_scalar (map (fun s => K - s) row) 0)
      (American.simulate_paths S0 T r sigma N paths g).

(** The body of the backward loop. *)
Let exercise : list R -> nat -> list R :=
  fun option_values i =>
    map2 Rmax (nth i payoffs []) (map (Rmult disc) option_values).

Lemma payoffs_row (i : nat) :
  (i <= N)%nat -> nth i payoffs [] = map (intrinsic i) (seq 0 paths).
Proof.
  intros Hi. destruct simulate_paths_rows as [Hlen Hrows].
  unfold payoffs.
  change (@nil R)
    with ((fun row => np_maximum_scalar (map (fun s => K - s) row) 0) [])
    at 1.
  rewrite map_nth, Hrows by exact Hi.
  unfold Spec.price_row, np_maximum_scalar. rewrite !map_map. reflexivity.
Qed.

Lemma payoffs_last : last payoffs [] = map (intrinsic N) (seq 0 paths).
Proof.
  destruct simulate_paths_rows as [Hlen _].
  rewrite (last_nth_length _ N) by (unfold payoffs; rewrite length_map; lia).
  apply payoffs_row. lia.
Qed.

Lemma backward_loop (m : nat) :
  (m <= N)%nat ->
  fold_left exercise (rev (seq 0 m)) (map (held (N - m)) (seq 0 paths))
  = map (held N) (seq 0 paths).
Proof.
  induction m as [|m IH]; intros Hm.
  - simpl. now rewrite Nat.sub_0_r.
  - rewrite seq_S, rev_app_distr. simpl rev. simpl fold_left.
    rewrite <- IH by lia. f_equal.
    unfold exercise. rewrite payoffs_row by lia.
    rewrite map_map, map2_map_same.
    apply map_ext. intros j.
    replace (N - m)%nat with (Datatypes.S (N - Datatypes.S m)) by lia.
    unfold held. simpl Spec.held.
    replace (N - Datatypes.S (N - Datatypes.S m))%nat with m by lia.
    reflexivity.
Qed.

(** The price computed by the cell is the mean over the paths of the values
    that the backward induction of the specification holds at time zero. *)
Lemma american_put_mc_held :
  fst (American.american_put_mc S0 K T r sigma N paths g)
  = np_mean (map (held N) (seq 0 paths)).
Proof.
  unfold American.american_put_mc. cbv zeta. simpl fst.
  f_equal. fold payoffs. rewrite payoffs_last.
  pose proof (backward_loop N (Nat.le_refl N)) as H.
  rewrite Nat.sub_diag in H. exact H.
Qed.

Lemma held_lower_bound (m j : nat) : disc ^ m * intrinsic N j <= held m j.
Proof.
  assert (Hdisc : 0 < disc) by apply exp_pos.
  unfold held.
  induction m as [|m IH]; cbn [Spec.held pow]; [unfold intrinsic; lra|].
  eapply Rle_trans; [|apply Rmax_r].
  rewrite Rmult_assoc. apply Rmult_le_compat_l; [left; exact Hdisc|exact IH].
Qed.

End Paths.

(** C9.  For [N >= 1] steps of size [dt = T/N] and any increments
    [Z_1 .. Z_N], the exact lognormal recursion ends at
    [S0 * exp((r - sigma^2/2)*T + sigma*sqrt(dt)*(Z_1 + ... + Z_N))].  The
    last row of the simulated paths is that recursion run on every path, and
    it is the vector of terminal prices that the one-step update of
    [monte_carlo_method] yields on the aggregated draws
    [(Z_1 + ... + Z_N) / sqrt N]. *)
Theorem gbm_paths_agree_at_maturity
  (S0 T r sigma : R) (N paths : nat) (g : rng) :
  0 < S0 -> 0 < T -> 0 < sigma -> (1 <= N)%nat ->
  let dt := T / INR N in
  let total := fun j => Spec.sum_upto (Spec.increments paths g j) N in
  let S_N := last (American.simulate_paths S0 T r sigma N paths g) [] in
  (forall Z : nat -> R,
      Spec.gbm S0 r sigma dt Z N
      = S0 * exp ((r - sigma * sigma / 2) * T
                  + sigma * sqrt dt * Spec.sum_upto Z N))
  /\ S_N = map (fun j => Spec.gbm S0 r sigma dt (Spec.increments paths g j) N)
               (seq 0 paths)
  /\ S_N = BSM.terminal_prices S0 T r sigma paths
             (fun j => total j / sqrt (INR N)).
Proof.
  intros _ HT _ HN dt total S_N.
  assert (HNpos : 0 < INR N) by (apply lt_0_INR; lia).
  assert (Hclosed : forall Z : nat -> R,
             Spec.gbm S0 r sigma dt Z N
             = S0 * exp ((r - sigma * sigma / 2) * T
                         + sigma * sqrt dt * Spec.sum_upto Z N)).
  { intros Z. rewrite gbm_closed_form. f_equal. f_equal. f_equal.
    unfold dt. field. lra. }
  assert (Hlast :
    S_N = map (fun j => Spec.gbm S0 r sigma dt (Spec.increments paths g j) N)
              (seq 0 paths)).
  { unfold S_N. rewrite simulate_paths_last. reflexivity. }
  split; [exact Hclosed|]. split; [exact Hlast|].
  rewrite Hlast. unfold BSM.terminal_prices, norm_rvs. rewrite map_map.
  apply map_ext. intros j. rewrite Hclosed. fold (total j).
  f_equal. f_equal.
  assert (Hroot : sqrt dt = sqrt T / sqrt (INR N)).
  { unfold dt. apply sqrt_div_alt. exact HNpos. }
  rewrite Hroot. field.
  apply Rgt_not_eq. now apply sqrt_lt_R0.
Qed.

Lemma gbm_paths_agree_at_maturity_witness :
  let dt := 1 / INR 2 in
  let total :=
    fun j => Spec.sum_upto (Spec.increments 3 (fun i => INR i) j) 2 in
  let S_N :=
    last (American.simulate_paths 100 1 (4 / 100) (1 / 5) 2 3 (fun i => INR i))
         [] in
  (forall Z : nat -> R,
      Spec.gbm 100 (4 / 100) (1 / 5) dt Z 2
      = 100 * exp ((4 / 100 - 1 / 5 * (1 / 5) / 2) * 1
                   + 1 / 5 * sqrt dt * Spec.sum_upto Z 2))
  /\ S_N = map (fun j => Spec.gbm 100 (4 / 100) (1 / 5) dt
                           (Spec.increments 3 (fun i => INR i) j) 2)
               (seq 0 3)
  /\ S_N = BSM.terminal_prices 100 1 (4 / 100) (1 / 5) 3
             (fun j => total j / sqrt (INR 2)).
Proof.
  apply (gbm_paths_agree_at_maturity 100 1 (4 / 100) (1 / 5) 2 3
           (fun i => INR i)); try lra; lia.
Defined.

(** C8.  On the same simulated paths and with the same parameters, the
    American put value of the backward induction, which puts the larger of
    the intrinsic value and the discounted continuation value at every step,
    is at least the European put value, the mean of the discounted terminal
    payoffs [e^{-rT} * max(K - S_N, 0)]. *)
Theorem american_put_dominates_european
  (S0 K T r sigma : R) (N paths : nat) (g : rng) :
  0 < S0 -> 0 < K -> 0 < T -> 0 < sigma -> (1 <= N)%nat -> (1 <= paths)%nat ->
  let S_N := last (American.simulate_paths S0 T r sigma N paths g) [] in
  let european :=
    np_mean (map (fun s => exp (- (r * T)) * Rmax (K - s) 0) S_N) in
  european <= fst (American.american_put_mc S0 K T r sigma N paths g).
Proof.
  intros _ _ _ _ HN Hpaths S_N european.
  assert (HNpos : 0 < INR N) by (apply lt_0_INR; lia).
  assert (Hppos : 0 < INR paths) by (apply lt_0_INR; lia).
  unfold european, S_N.
  rewrite simulate_paths_last, (american_put_mc_held S0 K T r sigma N paths g).
  unfold Spec.price_row. rewrite map_map.
  unfold np_mean. rewrite !length_map, length_seq.
  apply Rmult_le_compat_r; [left; now apply Rinv_0_lt_compat|].
  rewrite !(np_sum_map _ _ 0%nat).
  apply sum_upto_le. intros i _.
  eapply Rle_trans; [|apply held_lower_bound].
  rewrite exp_pow_INR.
  replace (INR N * (- r * (T / INR N))) with (- (r * T)) by (field; lra).
  unfold Spec.intrinsic. apply Rle_refl.
Qed.

Lemma american_put_dominates_european_witness :
  let S_N :=
    last (American.simulate_paths 100 1 (4 / 100) (1 / 5) 2 3 (fun i => INR i))
         [] in
  let european :=
    np_mean (map (fun s => exp (- (4 / 100 * 1)) * Rmax (100 - s) 0) S_N) in
  european
  <= fst (American.american_put_mc 100 100 1 (4 / 100) (1 / 5) 2 3
            (fun i => INR i)).
Proof.
  apply (american_put_dominates_european 100 100 1 (4 / 100) (1 / 5) 2 3
           (fun i => INR i)); try lra; lia.
Defined.

(** * Part IV: further properties of the code *)

(** ** The remaining Greeks *)


Lemma lower_ascii_idempotent (c : ascii) :
  Greeks.lower_ascii (Greeks.lower_ascii c) = Greeks.lower_ascii c.
Proof.
  destruct c as [[] [] [] [] [] [] [] []]; reflexivity.
Qed.

Lemma lower_idempotent (s : string) :
  Greeks.lower (Greeks.lower s) = Greeks.lower s.
Proof.
  induction s as [|c s IH]; simpl; [reflexivity|].
  now rewrite lower_ascii_idempotent, IH.
Qed.

Section GreeksFacts.

Variable norm_cdf : R -> R.
Hypothesis norm_cdf_reflect : forall x, norm_cdf (- x) = 1 - norm_cdf x.

(** X1.  Theta parity: the daily theta of the call minus the daily theta of
    the put is [- r*K*e^{-rT} / 365]. *)
Theorem theta_parity (S0 K T r sigma : R) :
  0 < S0 -> 0 < K -> 0 < T -> 0 < sigma ->
  exists theta_call theta_put : R,
    Greeks.calculate_theta norm_cdf S0 K T r sigma "call" = Return theta_call
    /\ Greeks.calculate_theta norm_cdf S0 K T r sigma "put" = Return theta_put
    /\ theta_call - theta_put = - (r * K * exp (- (r * T))) / 365.
Proof.
  intros _ _ _ _. unfold Greeks.calculate_theta. simpl.
  eexists. eexists. split; [reflexivity|]. split; [reflexivity|].
  rewrite norm_cdf_reflect.
  replace (- r * T) with (- (r * T)) by ring. lra.
Qed.

(** X2.  Rho parity: the rho of the call minus the rho of the put is
    [K*T*e^{-rT} / 100]. *)
Theorem rho_parity (S0 K T r sigma : R) :
  0 < S0 -> 0 < K -> 0 < T -> 0 < sigma ->
  exists rho_call rho_put : R,
    Greeks.calculate_rho norm_cdf S0 K T r sigma "call" = Return rho_call
    /\ Greeks.calculate_rho norm_cdf S0 K T r sigma "put" = Return rho_put
    /\ rho_call - rho_put = K * T * exp (- (r * T)) / 100
    /\ rho_put = rho_call - K * T * exp (- (r * T)) / 100.
Proof.
  intros _ _ _ _. unfold Greeks.calculate_rho. simpl.
  eexists. eexists. split; [reflexivity|]. split; [reflexivity|].
  rewrite norm_cdf_reflect.
  replace (- r * T) with (- (r * T)) by ring. lra.
Qed.

(** X3.  [calculate_delta] lowers its selector first, so it does not depend
    on the case of the ASCII letters of [payoff]. *)
Theorem calculate_delta_case_insensitive
  (S0 K T r sigma : R) (payoff : string) :
  Greeks.calculate_delta norm_cdf S0 K T r sigma (Greeks.lower payoff)
  = Greeks.calculate_delta norm_cdf S0 K T r sigma payoff.
Proof.
  unfold Greeks.calculate_delta. now rewrite lower_idempotent.
Qed.

(** X4.  On valid numbers, a selector that spells "call" with some
    upper-case letter is priced by [calculate_delta], but
    [calculate_theta], [calculate_rho] and [closed_formula], which compare
    the selector as it is, return [None] on it. *)
Theorem mixed_case_selector_dropped
  (S0 K T r sigma : R) (payoff : string) :
  0 < S0 -> 0 < K -> 0 < T -> 0 < sigma ->
  Greeks.lower payoff = "call"%string -> payoff <> "call"%string ->
  Greeks.calculate_delta norm_cdf S0 K T r sigma payoff
  = Greeks.calculate_delta norm_cdf S0 K T r sigma "call"
  /\ Greeks.calculate_theta norm_cdf S0 K T r sigma payoff = ReturnNone
  /\ Greeks.calculate_rho norm_cdf S0 K T r sigma payoff = ReturnNone
  /\ Greeks.closed_formula norm_cdf S0 K T r sigma payoff = ReturnNone.
Proof.
  intros _ _ _ _ Hlow Hne.
  assert (Hput : payoff <> "put"%string).
  { intros ->. discriminate Hlow. }
  apply String.eqb_neq in Hne. apply String.eqb_neq in Hput.
  split.
  - unfold Greeks.calculate_delta. rewrite Hlow. reflexivity.
  - unfold Greeks.calculate_theta, Greeks.calculate_rho,
      Greeks.closed_formula.
    rewrite Hne, Hput. repeat split; reflexivity.
Qed.

End GreeksFacts.

Lemma theta_parity_witness :
  exists theta_call theta_put : R,
    Greeks.calculate_theta std_normal_cdf 100 100 1 (4 / 100) (1 / 5) "call"
    = Return theta_call
    /\ Greeks.calculate_theta std_normal_cdf 100 100 1 (4 / 100) (1 / 5) "put"
       = Return theta_put
    /\ theta_call - theta_put
       = - (4 / 100 * 100 * exp (- (4 / 100 * 1))) / 365.
Proof.
  apply (theta_parity std_normal_cdf std_normal_cdf_reflect
           100 100 1 (4 / 100) (1 / 5)); lra.
Defined.

Lemma rho_parity_witness :
  exists rho_call rho_put : R,
    Greeks.calculate_rho std_normal_cdf 100 100 1 (4 / 100) (1 / 5) "call"
    = Return rho_call
    /\ Greeks.calculate_rho std_normal_cdf 100 100 1 (4 / 100) (1 / 5) "put"
       = Return rho_put
    /\ rho_call - rho_put = 100 * 1 * exp (- (4 / 100 * 1)) / 100
    /\ rho_put = rho_call - 100 * 1 * exp (- (4 / 100 * 1)) / 100.
Proof.
  apply (rho_parity std_normal_cdf std_normal_cdf_reflect
           100 100 1 (4 / 100) (1 / 5)); lra.
Defined.

Lemma mixed_case_selector_dropped_witness :
  Greeks.calculate_delta std_normal_cdf 100 100 1 (4 / 100) (1 / 5) "CALL"
  = Greeks.calculate_delta std_normal_cdf 100 100 1 (4 / 100) (1 / 5) "call"
  /\ Greeks.calculate_theta std_normal_cdf 100 100 1 (4 / 100) (1 / 5) "CALL"
     = ReturnNone
  /\ Greeks.calculate_rho std_normal_cdf 100 100 1 (4 / 100) (1 / 5) "CALL"
     = ReturnNone
  /\ Greeks.closed_formula std_normal_cdf 100 100 1 (4 / 100) (1 / 5) "CALL"
     = ReturnNone.
Proof.
  apply (mixed_case_selector_dropped std_normal_cdf
           100 100 1 (4 / 100) (1 / 5) "CALL");
    try lra; [reflexivity|discriminate].
Defined.



(** ** No-arbitrage relations of the binomial price *)

Lemma exp_le_mono (x y : R) : x <= y -> exp x <= exp y.
Proof.
  intros [Hlt|Heq]; [left; now apply exp_increasing|].
  rewrite Heq. apply Rle_refl.
Qed.

Lemma payoff_call_minus_put (K s : R) :
  Spec.payoff_at Spec.Call K s - Spec.payoff_at Spec.Put K s = s - K.
Proof.
  unfold Spec.payoff_at, Rmax.
  destruct (Rle_dec (s - K) 0), (Rle_dec (K - s) 0); lra.
Qed.

Section BinomialFacts.

Variables (S0 K T r sigma : R) (N : nat).
Hypothesis T_pos : 0 < T.
Hypothesis sigma_pos : 0 < sigma.
Hypothesis N_pos : (1 <= N)%nat.

Let dt : R := Spec.dt T N.
Let u : R := Spec.u T sigma N.
Let d : R := Spec.d T sigma N.
Let p : R := Spec.p T r sigma N.
Let disc : R := exp (- (r * dt)).
Let value : Spec.kind -> nat -> nat -> R :=
  fun k => Spec.node_value S0 K T r sigma N k.

Lemma dt_pos : 0 < dt.
Proof.
  unfold dt, Spec.dt. apply Rdiv_lt_0_compat; [exact T_pos|].
  apply lt_0_INR. lia.
Qed.

Lemma up_above_one : 1 < u.
Proof.
  unfold u, Spec.u. rewrite <- exp_0. apply exp_increasing.
  apply Rmult_lt_0_compat; [exact sigma_pos|]. apply sqrt_lt_R0, dt_pos.
Qed.

Lemma down_is_inverse : d = exp (- (sigma * sqrt dt)).
Proof. unfold d, Spec.d, u, Spec.u. rewrite exp_Ropp. fold dt. lra. Qed.

Lemma down_below_one : 0 < d < 1.
Proof.
  pose proof up_above_one as Hu. unfold d, Spec.d. fold u. split.
  - apply Rdiv_lt_0_compat; lra.
  - apply (Rmult_lt_reg_r u); [lra|].
    unfold Rdiv. rewrite Rmult_assoc, Rinv_l by lra. lra.
Qed.

(** The stock is a martingale on the tree once discounted:
    [p*u + (1-p)*d = e^{r*dt}]. *)
Lemma up_probability_martingale : p * u + (1 - p) * d = exp (r * dt).
Proof.
  pose proof up_above_one. pose proof down_below_one.
  unfold p, Spec.p. fold dt u d. field. lra.
Qed.

Lemma discount_growth : disc * exp (r * dt) = 1.
Proof. unfold disc. rewrite <- exp_plus, <- exp_0. f_equal. ring. Qed.

Lemma discount_to_maturity : disc ^ N = exp (- (r * T)).
Proof.
  unfold disc. rewrite exp_pow_INR. f_equal. unfold dt, Spec.dt. field.
  apply not_0_INR. lia.
Qed.

(** On every node of the tree, call minus put is the stock price of the
    node minus the strike discounted from maturity. *)
Lemma node_parity (m j : nat) :
  (j + m <= N)%nat ->
  value Spec.Call m j - value Spec.Put m j
  = S0 * u ^ j * d ^ (N - m - j) - K * disc ^ m.
Proof.
  revert j. induction m as [|m IH]; intros j Hj.
  - unfold value. cbn [Spec.node_value]. rewrite payoff_call_minus_put.
    fold u d. rewrite Nat.sub_0_r. simpl. ring.
  - pose proof (IH (j + 1)%nat ltac:(lia)) as Hup.
    pose proof (IH j ltac:(lia)) as Hdown.
    replace (N - m - (j + 1))%nat with (N - S m - j)%nat in Hup by lia.
    replace (N - m - j)%nat with (S (N - S m - j)) in Hdown by lia.
    replace (j + 1)%nat with (S j) in Hup by lia.
    unfold value in *. cbn [Spec.node_value].
    replace (j + 1)%nat with (S j) by lia.
    fold dt p disc.
    set (cu := Spec.node_value S0 K T r sigma N Spec.Call m (S j)) in *.
    set (pu := Spec.node_value S0 K T r sigma N Spec.Put m (S j)) in *.
    set (cd := Spec.node_value S0 K T r sigma N Spec.Call m j) in *.
    set (pd := Spec.node_value S0 K T r sigma N Spec.Put m j) in *.
    set (X := S0 * u ^ j * d ^ (N - S m - j)).
    replace (disc * (p * cu + (1 - p) * cd) - disc * (p * pu + (1 - p) * pd))
      with (disc * (p * (cu - pu) + (1 - p) * (cd - pd))) by ring.
    rewrite Hup, Hdown. simpl pow. fold X.
    replace (disc * (p * (S0 * (u * u ^ j) * d ^ (N - S m - j) - K * disc ^ m)
                     + (1 - p)
                       * (S0 * u ^ j * (d * d ^ (N - S m - j))
                          - K * disc ^ m)))
      with (X * (disc * (p * u + (1 - p) * d)) - K * (disc * disc ^ m))
      by (unfold X; ring).
    rewrite up_probability_martingale, discount_growth. ring.
Qed.

Lemma root_parity :
  Spec.root_value S0 K T r sigma N Spec.Call
  - Spec.root_value S0 K T r sigma N Spec.Put
  = S0 - K * exp (- (r * T)).
Proof.
  unfold Spec.root_value.
  pose proof (node_parity N 0 ltac:(lia)) as H. unfold value in H.
  rewrite H, discount_to_maturity.
  replace (N - N - 0)%nat with 0%nat by lia. simpl. ring.
Qed.

(** With an up-probability in the unit interval the values on the tree are
    non-negative, and those of the put stay below the discounted strike. *)
Hypothesis p_unit : 0 <= p <= 1.

Lemma node_nonneg (k : Spec.kind) (m j : nat) : 0 <= value k m j.
Proof.
  revert j. induction m as [|m IH]; intros j; unfold value in *.
  - simpl. destruct k; apply Rmax_r.
  - cbn [Spec.node_value]. fold dt p.
    apply Rmult_le_pos; [left; apply exp_pos|].
    apply Rplus_le_le_0_compat; apply Rmult_le_pos; try apply IH; lra.
Qed.

Lemma node_put_upper (m j : nat) :
  0 <= S0 -> 0 <= K -> value Spec.Put m j <= K * disc ^ m.
Proof.
  intros HS0 HK. pose proof up_above_one. pose proof down_below_one.
  revert j. induction m as [|m IH]; intros j; unfold value in *.
  - simpl. rewrite Rmult_1_r. fold u d. apply Rmax_lub; [|exact HK].
    assert (0 <= S0 * u ^ j * d ^ (N - j)); [|lra].
    apply Rmult_le_pos; [apply Rmult_le_pos|]; try exact HS0;
      apply pow_le; lra.
  - cbn [Spec.node_value]. fold dt p disc. simpl pow.
    replace (K * (disc * disc ^ m))
      with (disc * (p * (K * disc ^ m) + (1 - p) * (K * disc ^ m))) by ring.
    apply Rmult_le_compat_l; [left; apply exp_pos|].
    apply Rplus_le_compat; apply Rmult_le_compat_l; try apply IH; lra.
Qed.

End BinomialFacts.

(** The up-probability lies in the unit interval when the drift of a step
    is at most its volatility in absolute value. *)
Lemma p_unit_interval (T r sigma : R) (N : nat) :
  0 < T -> 0 < sigma -> (1 <= N)%nat ->
  Rabs (r * Spec.dt T N) <= sigma * sqrt (Spec.dt T N) ->
  0 <= Spec.p T r sigma N <= 1.
Proof.
  intros HT Hsigma HN Hdrift.
  pose proof (up_above_one T sigma N HT Hsigma HN) as Hu.
  pose proof (down_below_one T sigma N HT Hsigma HN) as Hd.
  pose proof (down_is_inverse T sigma N) as Hinv.
  cbv zeta in Hu, Hd, Hinv.
  assert (Hb : - (sigma * sqrt (Spec.dt T N)) <= r * Spec.dt T N
               <= sigma * sqrt (Spec.dt T N)).
  { revert Hdrift. unfold Rabs.
    destruct (Rcase_abs (r * Spec.dt T N)); lra. }
  assert (Hlow : Spec.d T sigma N <= exp (r * Spec.dt T N)).
  { rewrite Hinv. apply exp_le_mono. lra. }
  assert (Hhigh : exp (r * Spec.dt T N) <= Spec.u T sigma N).
  { unfold Spec.u. apply exp_le_mono. lra. }
  unfold Spec.p. split.
  - unfold Rdiv. apply Rmult_le_pos; [lra|].
    left. apply Rinv_0_lt_compat. lra.
  - apply (Rmult_le_reg_r (Spec.u T sigma N - Spec.d T sigma N)); [lra|].
    unfold Rdiv. rewrite Rmult_assoc, Rinv_l by lra. lra.
Qed.

(** X6.  Put-call parity on the tree: the binomial call price minus the
    binomial put price is [S0 - K*e^{-rT}], for every number of steps. *)
Theorem binomial_put_call_parity (S0 K T r sigma : R) (N : nat) :
  0 < S0 -> 0 < K -> 0 < T -> 0 < sigma -> (1 <= N)%nat ->
  exists call put : R,
    BSM.binomial_method S0 K T r sigma N "call" = Return call
    /\ BSM.binomial_method S0 K T r sigma N "put" = Return put
    /\ call - put = S0 - K * exp (- (r * T)).
Proof.
  intros _ _ HT Hsigma HN.
  exists (Spec.root_value S0 K T r sigma N Spec.Call),
         (Spec.root_value S0 K T r sigma N Spec.Put).
  split; [now apply (binomial_method_root S0 K T r sigma N Spec.Call)|].
  split; [now apply (binomial_method_root S0 K T r sigma N Spec.Put)|].
  now apply root_parity.
Qed.

Lemma binomial_put_call_parity_witness :
  exists call put : R,
    BSM.binomial_method 100 100 1 (4 / 100) (1 / 5) 3 "call" = Return call
    /\ BSM.binomial_method 100 100 1 (4 / 100) (1 / 5) 3 "put" = Return put
    /\ call - put = 100 - 100 * exp (- (4 / 100 * 1)).
Proof.
  apply (binomial_put_call_parity 100 100 1 (4 / 100) (1 / 5) 3);
    try lra; lia.
Defined.

(** X7.  When the drift of a step is at most its volatility in absolute
    value, the binomial prices obey the no-arbitrage bounds
    [max(S0 - K*e^{-rT}, 0) <= call <= S0] and
    [max(K*e^{-rT} - S0, 0) <= put <= K*e^{-rT}]. *)
Theorem binomial_price_bounds (S0 K T r sigma : R) (N : nat) :
  0 < S0 -> 0 < K -> 0 < T -> 0 < sigma -> (1 <= N)%nat ->
  Rabs (r * (T / INR N)) <= sigma * sqrt (T / INR N) ->
  exists call put : R,
    BSM.binomial_method S0 K T r sigma N "call" = Return call
    /\ BSM.binomial_method S0 K T r sigma N "put" = Return put
    /\ Rmax (S0 - K * exp (- (r * T))) 0 <= call <= S0
    /\ Rmax (K * exp (- (r * T)) - S0) 0 <= put <= K * exp (- (r * T)).
Proof.
  intros HS0 HK HT Hsigma HN Hdrift.
  pose proof (p_unit_interval T r sigma N HT Hsigma HN Hdrift) as Hp.
  exists (Spec.root_value S0 K T r sigma N Spec.Call),
         (Spec.root_value S0 K T r sigma N Spec.Put).
  split; [now apply (binomial_method_root S0 K T r sigma N Spec.Call)|].
  split; [now apply (binomial_method_root S0 K T r sigma N Spec.Put)|].
  pose proof (root_parity S0 K T r sigma N HT Hsigma HN) as Hpar.
  pose proof (node_nonneg S0 K T r sigma N Hp Spec.Call N 0) as Hc.
  pose proof (node_nonneg S0 K T r sigma N Hp Spec.Put N 0) as Hq.
  pose proof (node_put_upper S0 K T r sigma N HT Hsigma HN Hp N 0
                ltac:(lra) ltac:(lra)) as Hup.
  cbv zeta in Hc, Hq, Hup.
  rewrite (discount_to_maturity T r N HN) in Hup.
  unfold Spec.root_value in *.
  split; (split; [apply Rmax_lub|]); lra.
Qed.

Lemma binomial_price_bounds_witness :
  exists call put : R,
    BSM.binomial_method 100 100 1 (4 / 100) (1 / 5) 1 "call" = Return call
    /\ BSM.binomial_method 100 100 1 (4 / 100) (1 / 5) 1 "put" = Return put
    /\ Rmax (100 - 100 * exp (- (4 / 100 * 1))) 0 <= call <= 100
    /\ Rmax (100 * exp (- (4 / 100 * 1)) - 100) 0 <= put
       <= 100 * exp (- (4 / 100 * 1)).
Proof.
  apply (binomial_price_bounds 100 100 1 (4 / 100) (1 / 5) 1);
    try lra; try lia.
  replace (1 / INR 1) with 1 by (simpl; field).
  rewrite sqrt_1, Rabs_pos_eq; lra.
Defined.

(** X8.  With one step, a drift above the volatility and a strike inside the
    range of the two terminal prices, the put price that [binomial_method]
    returns is negative. *)
Theorem binomial_put_negative_one_step (S0 K T r sigma : R) :
  0 < S0 -> 0 < K -> 0 < T -> 0 < sigma ->
  sigma * sqrt T < r * T ->
  S0 * exp (- (sigma * sqrt T)) < K <= S0 * exp (sigma * sqrt T) ->
  exists put : R,
    BSM.binomial_method S0 K T r sigma 1 "put" = Return put /\ put < 0.
Proof.
  intros HS0 HK HT Hsigma Hdrift [Hlow Hhigh].
  assert (Hdt : Spec.dt T 1 = T) by (unfold Spec.dt; simpl; field).
  assert (Hvol : 0 < sigma * sqrt T).
  { apply Rmult_lt_0_compat; [lra|now apply sqrt_lt_R0]. }
  assert (Hp : 1 < Spec.p T r sigma 1).
  { apply p_above_one; rewrite Hdt; assumption. }
  assert (Hu : Spec.u T sigma 1 = exp (sigma * sqrt T)).
  { unfold Spec.u. now rewrite Hdt. }
  assert (Hd : Spec.d T sigma 1 = exp (- (sigma * sqrt T))).
  { unfold Spec.d. rewrite Hu, exp_Ropp. lra. }
  exists (Spec.root_value S0 K T r sigma 1 Spec.Put).
  split; [apply (binomial_method_root S0 K T r sigma 1 Spec.Put); lia|].
  rewrite root_value_one_step. unfold Spec.payoff_at.
  rewrite Hu, Hd.
  rewrite (Rmax_right (K - S0 * exp (sigma * sqrt T)) 0) by lra.
  rewrite (Rmax_left (K - S0 * exp (- (sigma * sqrt T))) 0) by lra.
  rewrite Rmult_0_r, Rplus_0_l.
  pose proof (exp_pos (- (r * (T / 1)))) as Hdisc.
  assert (Hneg : (1 - Spec.p T r sigma 1)
                 * (K - S0 * exp (- (sigma * sqrt T))) < 0) by nra.
  nra.
Qed.

Lemma binomial_put_negative_one_step_witness :
  exists put : R,
    BSM.binomial_method 100 100 1 2 1 1 "put" = Return put /\ put < 0.
Proof.
  assert (Hup : 1 < exp 1).
  { pose proof (exp_increasing 0 1) as H. rewrite exp_0 in H. apply H. lra. }
  assert (Hdown : exp (- (1)) < 1).
  { pose proof (exp_increasing (- (1)) 0) as H. rewrite exp_0 in H.
    apply H. lra. }
  apply (binomial_put_negative_one_step 100 100 1 2 1);
    rewrite ?sqrt_1, ?Rmult_1_r; try lra.
Defined.

(** ** The closed formula is homogeneous *)

(** X9.  Scaling the spot and the strike by the same positive factor scales
    the closed-form price by that factor. *)
Theorem closed_formula_homogeneous
  (norm_cdf : R -> R) (S0 K T r sigma c : R) (k : Spec.kind) :
  0 < S0 -> 0 < K -> 0 < T -> 0 < sigma -> 0 < c ->
  exists price : R,
    BSM.closed_formula norm_cdf S0 K T r sigma (Spec.selector k)
    = Return price
    /\ BSM.closed_formula norm_cdf (c * S0) (c * K) T r sigma
         (Spec.selector k)
       = Return (c * price).
Proof.
  intros _ HK _ _ Hc.
  assert (Hratio : c * S0 / (c * K) = S0 / K) by (field; lra).
  unfold BSM.closed_formula. rewrite Hratio. cbv zeta.
  destruct k; simpl; eexists; (split; [reflexivity|]); f_equal; ring.
Qed.

Lemma closed_formula_homogeneous_witness :
  exists price : R,
    BSM.closed_formula std_normal_cdf 100 100 1 (4 / 100) (1 / 5) "put"
    = Return price
    /\ BSM.closed_formula std_normal_cdf (2 * 100) (2 * 100) 1 (4 / 100)
         (1 / 5) "put"
       = Return (2 * price).
Proof.
  apply (closed_formula_homogeneous std_normal_cdf
           100 100 1 (4 / 100) (1 / 5) 2 Spec.Put); lra.
Defined.

(** ** Sign and parity of the Monte Carlo estimate *)

Lemma np_sum_nonneg (xs : list R) :
  Forall (fun x => 0 <= x) xs -> 0 <= np_sum xs.
Proof.
  induction 1 as [|x xs Hx _ IH]; simpl; [apply Rle_refl|lra].
Qed.

Lemma np_sum_affine (c K : R) (xs : list R) :
  np_sum (map (fun s => c * (s - K)) xs)
  = c * (np_sum xs - INR (length xs) * K).
Proof.
  induction xs as [|x xs IH]; [simpl; ring|].
  simpl length. rewrite S_INR. simpl. rewrite IH. ring.
Qed.

Lemma np_sum_minus (f h : R -> R) (xs : list R) :
  np_sum (map f xs) - np_sum (map h xs)
  = np_sum (map (fun s => f s - h s) xs).
Proof.
  induction xs as [|x xs IH]; simpl; [ring|]. rewrite <- IH. ring.
Qed.

(** What [monte_carlo_method] returns, as mean and standard error of one
    array of discounted payoffs. *)
Lemma monte_carlo_method_value
  (S0 K T r sigma : R) (M : nat) (k : Spec.kind) (g : rng) :
  let payoffs :=
    map (fun s => exp (- (r * T)) * Spec.payoff_at k K s)
        (BSM.terminal_prices S0 T r sigma M g) in
  BSM.monte_carlo_method S0 K T r sigma M (Spec.selector k) g
  = Return (np_mean payoffs, ss_sem payoffs).
Proof.
  intros payoffs.
  pose proof (discounted_payoffs k K r T
                (BSM.terminal_prices S0 T r sigma M g)) as Hpay.
  unfold BSM.monte_carlo_method.
  destruct k; cbv beta iota in Hpay; unfold Spec.selector;
    cbn [String.eqb Ascii.eqb Bool.eqb]; cbv zeta; rewrite Hpay;
    reflexivity.
Qed.

Lemma terminal_prices_positive (S0 T r sigma : R) (M : nat) (g : rng) :
  0 < S0 -> Forall (fun s => 0 < s) (BSM.terminal_prices S0 T r sigma M g).
Proof.
  intros HS0. unfold BSM.terminal_prices. apply Forall_map.
  apply Forall_forall. intros w _.
  apply Rmult_lt_0_compat; [exact HS0|apply exp_pos].
Qed.

(** X10.  Every sampled terminal price is positive, and the estimate and its
    standard error are non-negative. *)
Theorem monte_carlo_estimate_nonneg
  (S0 K T r sigma : R) (M : nat) (k : Spec.kind) (g : rng) :
  0 < S0 -> 0 < K -> 0 < T -> 0 < sigma -> (2 <= M)%nat ->
  Forall (fun s => 0 < s) (BSM.terminal_prices S0 T r sigma M g)
  /\ exists V std_err : R,
       BSM.monte_carlo_method S0 K T r sigma M (Spec.selector k) g
       = Return (V, std_err)
       /\ 0 <= V /\ 0 <= std_err.
Proof.
  intros HS0 _ _ _ HM.
  split; [now apply terminal_prices_positive|].
  eexists. eexists. split; [apply monte_carlo_method_value|].
  assert (Hlen : 0 < INR M) by (apply lt_0_INR; lia).
  split.
  - unfold np_mean. rewrite length_map, length_terminal_prices.
    apply Rmult_le_pos; [|left; now apply Rinv_0_lt_compat].
    apply np_sum_nonneg, Forall_map, Forall_forall. intros s _.
    apply Rmult_le_pos; [left; apply exp_pos|].
    destruct k; apply Rmax_r.
  - unfold ss_sem. rewrite length_map, length_terminal_prices.
    apply Rmult_le_pos; [apply sqrt_pos|].
    left. apply Rinv_0_lt_compat. now apply sqrt_lt_R0.
Qed.

Lemma monte_carlo_estimate_nonneg_witness :
  Forall (fun s => 0 < s)
    (BSM.terminal_prices 100 1 (4 / 100) (1 / 5) 3 (fun i => INR i))
  /\ exists V std_err : R,
       BSM.monte_carlo_method 100 100 1 (4 / 100) (1 / 5) 3 "put"
         (fun i => INR i)
       = Return (V, std_err)
       /\ 0 <= V /\ 0 <= std_err.
Proof.
  apply (monte_carlo_estimate_nonneg 100 100 1 (4 / 100) (1 / 5) 3
           Spec.Put (fun i => INR i)); try lra; lia.
Defined.

(** X11.  On the same draws (the same seed), the call estimate minus the put
    estimate is the discounted gap between the mean sampled terminal price
    and the strike. *)
Theorem monte_carlo_sample_parity
  (S0 K T r sigma : R) (M : nat) (g : rng) :
  0 < S0 -> 0 < K -> 0 < T -> 0 < sigma -> (1 <= M)%nat ->
  exists call call_err put put_err : R,
    BSM.monte_carlo_method S0 K T r sigma M "call" g
    = Return (call, call_err)
    /\ BSM.monte_carlo_method S0 K T r sigma M "put" g
       = Return (put, put_err)
    /\ call - put
       = exp (- (r * T))
         * (np_mean (BSM.terminal_prices S0 T r sigma M g) - K).
Proof.
  intros _ _ _ _ HM.
  do 4 eexists.
  split; [apply (monte_carlo_method_value S0 K T r sigma M Spec.Call g)|].
  split; [apply (monte_carlo_method_value S0 K T r sigma M Spec.Put g)|].
  assert (Hlen : INR M <> 0) by (apply not_0_INR; lia).
  set (ST := BSM.terminal_prices S0 T r sigma M g).
  assert (HST : length ST = M) by apply length_terminal_prices.
  unfold np_mean. rewrite !length_map, HST.
  replace (np_sum (map (fun s => exp (- (r * T))
                                 * Spec.payoff_at Spec.Call K s) ST)
           / INR M
           - np_sum (map (fun s => exp (- (r * T))
                                   * Spec.payoff_at Spec.Put K s) ST)
             / INR M)
    with ((np_sum (map (fun s => exp (- (r * T))
                                 * Spec.payoff_at Spec.Call K s) ST)
           - np_sum (map (fun s => exp (- (r * T))
                                   * Spec.payoff_at Spec.Put K s) ST))
          / INR M) by (field; exact Hlen).
  rewrite np_sum_minus.
  rewrite (map_ext _ (fun s => exp (- (r * T)) * (s - K))).
  - rewrite np_sum_affine, HST. field. exact Hlen.
  - intros s. rewrite <- (payoff_call_minus_put K s). ring.
Qed.

Lemma monte_carlo_sample_parity_witness :
  exists call call_err put put_err : R,
    BSM.monte_carlo_method 100 100 1 (4 / 100) (1 / 5) 3 "call"
      (fun i => INR i)
    = Return (call, call_err)
    /\ BSM.monte_carlo_method 100 100 1 (4 / 100) (1 / 5) 3 "put"
         (fun i => INR i)
       = Return (put, put_err)
    /\ call - put
       = exp (- (4 / 100 * 1))
         * (np_mean (BSM.terminal_prices 100 1 (4 / 100) (1 / 5) 3
                       (fun i => INR i)) - 100).
Proof.
  apply (monte_carlo_sample_parity 100 100 1 (4 / 100) (1 / 5) 3
           (fun i => INR i)); try lra; lia.
Defined.

(** ** The simulated paths and the American put estimate *)

Lemma gbm_pos (S0 r sigma dt : R) (Z : nat -> R) (i : nat) :
  0 < S0 -> 0 < Spec.gbm S0 r sigma dt Z i.
Proof.
  intros HS0. induction i as [|i IH]; simpl; [exact HS0|].
  apply Rmult_lt_0_compat; [exact IH|apply exp_pos].
Qed.

(** X12.  The simulated array has [N + 1] rows of [paths] entries, and every
    entry is a positive price. *)
Theorem simulate_paths_shape_and_sign
  (S0 T r sigma : R) (N paths : nat) (g : rng) :
  0 < S0 -> 0 < T -> 0 < sigma -> (1 <= N)%nat ->
  let S := American.simulate_paths S0 T r sigma N paths g in
  length S = (N + 1)%nat
  /\ Forall (fun row => length row = paths /\ Forall (fun s => 0 < s) row) S.
Proof.
  intros HS0 _ _ _ S.
  destruct (simulate_paths_rows S0 T r sigma N paths g) as [Hlen Hrows].
  fold S in Hlen, Hrows. split; [exact Hlen|].
  apply Forall_forall. intros row Hin.
  destruct (In_nth S row [] Hin) as [i [Hi Hrow]].
  rewrite Hrows in Hrow by lia. subst row. unfold Spec.price_row. split.
  - now rewrite length_map, length_seq.
  - apply Forall_map, Forall_forall. intros j _. now apply gbm_pos.
Qed.

Lemma simulate_paths_shape_and_sign_witness :
  let S :=
    American.simulate_paths 100 1 (4 / 100) (1 / 5) 2 3 (fun i => INR i) in
  length S = (2 + 1)%nat
  /\ Forall (fun row => length row = 3%nat /\ Forall (fun s => 0 < s) row) S.
Proof.
  apply (simulate_paths_shape_and_sign 100 1 (4 / 100) (1 / 5) 2 3
           (fun i => INR i)); try lra; lia.
Defined.

Lemma max_upto_ext (f h : nat -> R) (n : nat) :
  (forall i, (i <= n)%nat -> f i = h i) -> max_upto f n = max_upto h n.
Proof.
  intros Hfh. induction n as [|n IH]; simpl; [apply Hfh; lia|].
  rewrite IH, Hfh by auto. reflexivity.
Qed.

Lemma max_upto_shift (f : nat -> R) (n : nat) :
  max_upto f (S n) = Rmax (f 0%nat) (max_upto (fun i => f (S i)) n).
Proof.
  induction n as [|n IH]; [reflexivity|].
  change (max_upto f (S (S n))) with (Rmax (max_upto f (S n)) (f (S (S n)))).
  rewrite IH. simpl. now rewrite Rmax_assoc.
Qed.

Lemma max_upto_scale (c : R) (f : nat -> R) (n : nat) :
  0 <= c -> c * max_upto f n = max_upto (fun i => c * f i) n.
Proof.
  intros Hc. induction n as [|n IH]; simpl; [reflexivity|].
  now rewrite <- IH, RmaxRmult.
Qed.

Lemma max_upto_ge (f : nat -> R) (n i : nat) :
  (i <= n)%nat -> f i <= max_upto f n.
Proof.
  intros Hi. induction n as [|n IH]; simpl.
  - replace i with 0%nat by lia. apply Rle_refl.
  - destruct (Nat.eq_dec i (S n)) as [->|Hne]; [apply Rmax_r|].
    eapply Rle_trans; [apply IH; lia|apply Rmax_l].
Qed.

Lemma max_upto_le (f : nat -> R) (n : nat) (b : R) :
  (forall i, (i <= n)%nat -> f i <= b) -> max_upto f n <= b.
Proof.
  intros Hf. induction n as [|n IH]; simpl; [apply Hf; lia|].
  apply Rmax_lub; [apply IH; intros; apply Hf; lia|apply Hf; lia].
Qed.

Lemma np_mean_ge {A : Type} (f : A -> R) (l : list A) (lo : R) :
  (1 <= length l)%nat -> (forall x, lo <= f x) -> lo <= np_mean (map f l).
Proof.
  intros Hlen Hf.
  assert (Hn : 0 < INR (length l)) by (apply lt_0_INR; lia).
  assert (Hsum : INR (length l) * lo <= np_sum (map f l)).
  { clear Hlen Hn. induction l as [|x l IH]; [simpl; lra|].
    simpl length. rewrite S_INR. simpl. pose proof (Hf x). lra. }
  unfold np_mean. rewrite length_map.
  apply (Rmult_le_reg_r (INR (length l))); [exact Hn|].
  unfold Rdiv. rewrite Rmult_assoc, Rinv_l by lra. lra.
Qed.

Lemma np_mean_le {A : Type} (f : A -> R) (l : list A) (hi : R) :
  (1 <= length l)%nat -> (forall x, f x <= hi) -> np_mean (map f l) <= hi.
Proof.
  intros Hlen Hf.
  assert (Hn : 0 < INR (length l)) by (apply lt_0_INR; lia).
  assert (Hsum : np_sum (map f l) <= INR (length l) * hi).
  { clear Hlen Hn. induction l as [|x l IH]; [simpl; lra|].
    simpl length. rewrite S_INR. simpl. pose proof (Hf x). lra. }
  unfold np_mean. rewrite length_map.
  apply (Rmult_le_reg_r (INR (length l))); [exact Hn|].
  unfold Rdiv. rewrite Rmult_assoc, Rinv_l by lra. lra.
Qed.

Section PathwiseMaximum.

Variables (S0 K T r sigma : R) (N paths : nat) (g : rng).

Let disc : R := exp (- r * (T / INR N)).
Let intrinsic : nat -> nat -> R := Spec.intrinsic S0 K T r sigma N paths g.
Let held : nat -> nat -> R := Spec.held S0 K T r sigma N paths g.

(** Along a path the backward induction keeps the largest of the discounted
    intrinsic values of the steps it has gone through. *)
Lemma held_is_maximum (m j : nat) :
  (m <= N)%nat ->
  held m j = max_upto (fun i => disc ^ i * intrinsic (N - m + i) j) m.
Proof.
  induction m as [|m IH]; intros Hm; unfold held in *.
  - simpl. rewrite Nat.sub_0_r, Nat.add_0_r. unfold intrinsic. ring.
  - cbn [Spec.held]. fold disc intrinsic. rewrite IH by lia.
    rewrite max_upto_scale by (left; apply exp_pos).
    rewrite max_upto_shift. rewrite Nat.add_0_r. f_equal.
    + simpl. ring.
    + apply max_upto_ext. intros i _.
      replace (N - S m + S i)%nat with (N - m + i)%nat by lia.
      simpl. ring.
Qed.

Lemma held_at_start (j : nat) :
  held N j = max_upto (fun i => disc ^ i * intrinsic i j) N.
Proof.
  rewrite held_is_maximum by lia. apply max_upto_ext. intros i _.
  now rewrite Nat.sub_diag.
Qed.

End PathwiseMaximum.

(** X13.  The estimate of the cell is the mean over the paths of the largest
    discounted intrinsic value [e^{-r*i*dt} * max(K - S[i, j], 0)] met along
    the path, [i = 0 .. N]: each path is exercised at its own best step. *)
Theorem american_put_pathwise_maximum
  (S0 K T r sigma : R) (N paths : nat) (g : rng) :
  0 < S0 -> 0 < K -> 0 < T -> 0 < sigma -> (1 <= N)%nat ->
  let S := American.simulate_paths S0 T r sigma N paths g in
  fst (American.american_put_mc S0 K T r sigma N paths g)
  = np_mean
      (map (fun j =>
              max_upto
                (fun i => exp (- (r * (INR i * (T / INR N))))
                          * Rmax (K - nth j (nth i S []) 0) 0)
                N)
           (seq 0 paths)).
Proof.
  intros _ _ _ _ _ S.
  destruct (simulate_paths_rows S0 T r sigma N paths g) as [_ Hrows].
  fold S in Hrows.
  rewrite (american_put_mc_held S0 K T r sigma N paths g).
  f_equal. apply map_ext_in. intros j Hj. apply in_seq in Hj.
  rewrite held_at_start. apply max_upto_ext. intros i Hi.
  rewrite exp_pow_INR, Hrows by exact Hi.
  unfold Spec.price_row. rewrite (nth_map_in _ _ _ 0%nat)
    by (rewrite length_seq; lia).
  rewrite seq_nth by lia. unfold Spec.intrinsic. simpl Nat.add.
  f_equal. f_equal. ring.
Qed.

Lemma american_put_pathwise_maximum_witness :
  let S :=
    American.simulate_paths 100 1 (4 / 100) (1 / 5) 2 3 (fun i => INR i) in
  fst (American.american_put_mc 100 100 1 (4 / 100) (1 / 5) 2 3
         (fun i => INR i))
  = np_mean
      (map (fun j =>
              max_upto
                (fun i => exp (- (4 / 100 * (INR i * (1 / INR 2))))
                          * Rmax (100 - nth j (nth i S []) 0) 0)
                2)
           (seq 0 3)).
Proof.
  apply (american_put_pathwise_maximum 100 100 1 (4 / 100) (1 / 5) 2 3
           (fun i => INR i)); try lra; lia.
Defined.

(** X14.  The estimate is never below the value of immediate exercise,
    [max(K - S0, 0)]. *)
Theorem american_put_at_least_intrinsic
  (S0 K T r sigma : R) (N paths : nat) (g : rng) :
  0 < S0 -> 0 < K -> 0 < T -> 0 < sigma ->
  (1 <= N)%nat -> (1 <= paths)%nat ->
  Rmax (K - S0) 0
  <= fst (American.american_put_mc S0 K T r sigma N paths g).
Proof.
  intros _ _ _ _ _ Hpaths.
  rewrite (american_put_mc_held S0 K T r sigma N paths g).
  apply np_mean_ge; [now rewrite length_seq|]. intros j.
  rewrite held_at_start.
  pose proof (max_upto_ge
                (fun i => exp (- r * (T / INR N)) ^ i
                          * Spec.intrinsic S0 K T r sigma N paths g i j)
                N 0 ltac:(lia)) as H.
  cbv beta in H. unfold Spec.intrinsic at 1 in H. simpl in H.
  rewrite Rmult_1_l in H. exact H.
Qed.

Lemma american_put_at_least_intrinsic_witness :
  Rmax (100 - 100) 0
  <= fst (American.american_put_mc 100 100 1 (4 / 100) (1 / 5) 2 3
            (fun i => INR i)).
Proof.
  apply (american_put_at_least_intrinsic 100 100 1 (4 / 100) (1 / 5) 2 3
           (fun i => INR i)); try lra; lia.
Defined.

(** X15.  With a non-negative rate the estimate is at most the strike. *)
Theorem american_put_at_most_strike
  (S0 K T r sigma : R) (N paths : nat) (g : rng) :
  0 < S0 -> 0 < K -> 0 < T -> 0 < sigma -> 0 <= r ->
  (1 <= N)%nat -> (1 <= paths)%nat ->
  fst (American.american_put_mc S0 K T r sigma N paths g) <= K.
Proof.
  intros HS0 HK HT _ Hr HN Hpaths.
  rewrite (american_put_mc_held S0 K T r sigma N paths g).
  apply np_mean_le; [now rewrite length_seq|]. intros j.
  rewrite held_at_start. apply max_upto_le. intros i _.
  assert (HNpos : 0 < INR N) by (apply lt_0_INR; lia).
  assert (Hdisc : 0 < exp (- r * (T / INR N)) ^ i <= 1).
  { rewrite exp_pow_INR. split; [apply exp_pos|].
    rewrite <- exp_0. apply exp_le_mono.
    assert (0 <= INR i) by apply pos_INR.
    assert (0 <= r * (T / INR N)).
    { apply Rmult_le_pos; [exact Hr|].
      left. now apply Rdiv_lt_0_compat. }
    nra. }
  assert (Hint : 0 <= Spec.intrinsic S0 K T r sigma N paths g i j <= K).
  { unfold Spec.intrinsic. split; [apply Rmax_r|].
    pose proof (gbm_pos S0 r sigma (T / INR N)
                  (Spec.increments paths g j) i HS0).
    apply Rmax_lub; lra. }
  nra.
Qed.

Lemma american_put_at_most_strike_witness :
  fst (American.american_put_mc 100 100 1 (4 / 100) (1 / 5) 2 3
         (fun i => INR i)) <= 100.
Proof.
  apply (american_put_at_most_strike 100 100 1 (4 / 100) (1 / 5) 2 3
           (fun i => INR i)); try lra; lia.
Defined.
